(** * Eyes Studio: the frame loop, the style catalog, the eyebrow overlay
      renderer and the capture store of [app/studio/page.tsx].

    The page is a React component around a webcam video, a canvas and the
    MediaPipe face landmarker.  This development embeds the parts of it that
    carry behaviour: the render callback of the animation-frame loop, the
    resolution of the selected style, the two overlay renderers (the filled
    polygon of the earlier revision and the smoothed stroke of the current
    one) and the capture handler.

    JavaScript numbers are IEEE 754 binary64 values, so they are Rocq's
    primitive floats; [===] on numbers is [PrimFloat.eqb].  The 2D drawing
    context is the list of calls made on it, and a callback that can raise a
    [TypeError] returns an abrupt completion together with the context it
    leaves behind. *)

From Stdlib Require Import String List Bool Arith ZArith Lia.
From Stdlib Require Import Floats.
Import ListNotations.

Set Warnings "-inexact-float".

Local Open Scope string_scope.
Local Open Scope list_scope.
Local Open Scope float_scope.

(** ** Numbers *)

(** An array index or a length used as a number. *)
Definition num (n : nat) : float := PrimFloat.of_uint63 (Uint63.of_Z (Z.of_nat n)).

(** [Math.PI] *)
Definition PI : float := 3.141592653589793.

(** [!v] for a number [v]: zero of either sign and NaN are falsy. *)
Definition falsy (v : float) : bool := (v =? 0) || negb (v =? v).

(** ** Data model *)

(** One normalised landmark, [{ x: number; y: number }] (the optional depth
    is never read). *)
Record Landmark := mkLandmark { lm_x : float; lm_y : float }.

(** A pixel position, the [{ x, y }] literals built by the renderer. *)
Record Point := mkPoint { px : float; py : float }.

(** [type EyebrowStyle] *)
Record EyebrowStyle := mkStyle {
  id : string;
  name : string;
  color : string;
  thickness : float;
  offsetY : float
}.

(** [type Capture] *)
Record Capture := mkCapture { url : string; createdAt : float }.

(** ** The drawing context *)

(** The calls and property writes a [CanvasRenderingContext2D] receives. *)
Inductive CanvasOp :=
| DrawImage (w h : float)
| Save
| Restore
| SetFilter (f : string)
| SetFillStyle (c : string)
| SetStrokeStyle (c : string)
| SetLineWidth (w : float)
| SetLineCap (s : string)
| SetLineJoin (s : string)
| SetGlobalAlpha (a : float)
| BeginPath
| MoveTo (x y : float)
| LineTo (x y : float)
| QuadraticCurveTo (cpx cpy x y : float)
| ClosePath
| Fill
| Stroke.

(** The context: the size of its canvas and the calls received so far,
    oldest first. *)
Record Ctx := mkCtx {
  canvas_width : float;
  canvas_height : float;
  ops : list CanvasOp
}.

(** ** Completions *)

Inductive JsError := TypeError.

Inductive Completion (A : Type) :=
| Normal (a : A)
| Thrown (e : JsError).
Arguments Normal {A} a.
Arguments Thrown {A} e.

(** A computation over a state [St] that may throw; the state it reached is
    returned in both cases. *)
Definition Eff (St A : Type) : Type := St -> Completion A * St.

Definition ret {St A} (a : A) : Eff St A := fun s => (Normal a, s).

Definition throw {St A} (e : JsError) : Eff St A := fun s => (Thrown e, s).

Definition bind {St A B} (m : Eff St A) (k : A -> Eff St B) : Eff St B :=
  fun s =>
    match m s with
    | (Normal a, s') => k a s'
    | (Thrown e, s') => (Thrown e, s')
    end.

Notation "x <- m ;; k" := (bind m (fun x => k))
  (at level 61, m at next level, right associativity).
Notation "m ;; k" := (bind m (fun _ => k))
  (at level 61, right associativity).

(** [arr.map((v, idx) => f(v, idx))], from index [from]. *)
Fixpoint mapi_from {St A B} (f : A -> nat -> Eff St B) (from : nat) (l : list A)
  : Eff St (list B) :=
  match l with
  | [] => ret []
  | a :: l' =>
      b <- f a from ;;
      bs <- mapi_from f (S from) l' ;;
      ret (b :: bs)
  end.

Definition mapi {St A B} (f : A -> nat -> Eff St B) (l : list A) : Eff St (list B) :=
  mapi_from f 0 l.

(** [arr.forEach((v, idx) => f(v, idx))], from index [from]. *)
Fixpoint forEach_from {St A} (f : A -> nat -> Eff St unit) (from : nat) (l : list A)
  : Eff St unit :=
  match l with
  | [] => ret tt
  | a :: l' => f a from ;; forEach_from f (S from) l'
  end.

Definition forEach {St A} (f : A -> nat -> Eff St unit) (l : list A) : Eff St unit :=
  forEach_from f 0 l.

(** [for (let i = from; i < from + n; i++) body(i)]: the loop of [n]
    iterations that starts at [from]. *)
Fixpoint for_up {St} (n from : nat) (body : nat -> Eff St unit) : Eff St unit :=
  match n with
  | O => ret tt
  | S n' => body from ;; for_up n' (S from) body
  end.

(** Canvas computations. *)
Definition Draw (A : Type) : Type := Eff Ctx A.

Definition emit (op : CanvasOp) : Draw unit :=
  fun c => (Normal tt, mkCtx (canvas_width c) (canvas_height c) (ops c ++ [op])).

Definition width : Draw float := fun c => (Normal (canvas_width c), c).
Definition height : Draw float := fun c => (Normal (canvas_height c), c).

(** Reading a property of a value that may be [undefined]. *)
Definition prop {St A B} (f : A -> B) (v : option A) : Eff St B :=
  match v with
  | Some a => ret (f a)
  | None => throw TypeError
  end.

(** [arr[i]] *)
Definition at_index {A} (arr : list A) (i : nat) : option A := nth_error arr i.

(** [!v] for a value that is an object or [undefined]. *)
Definition is_undefined {A} (v : option A) : bool :=
  match v with Some _ => false | None => true end.

(** ** The style catalog *)

(** The five presets held in the [styles] state of the page. *)
Definition styles : list EyebrowStyle :=
  [ mkStyle "natural" "내추럴" "rgba(60, 40, 30, 0.75)" 1.0 0.0;
    mkStyle "soft-flat" "소프트 일자" "rgba(45, 35, 28, 0.82)" 1.3 (-0.003);
    mkStyle "flat" "선명 일자" "rgba(30, 22, 18, 0.88)" 1.6 (-0.006);
    mkStyle "arch" "아치" "rgba(55, 35, 25, 0.85)" 1.4 (-0.01);
    mkStyle "strong-arch" "강한 아치" "rgba(25, 18, 14, 0.9)" 1.9 (-0.014) ].

(** [styles.find((s) => s.id === selectedStyleId) ?? styles[0]] over any
    catalog: [undefined] only when the catalog is empty. *)
Definition resolveStyle (catalog : list EyebrowStyle) (selectedStyleId : string)
  : option EyebrowStyle :=
  match find (fun s => String.eqb (id s) selectedStyleId) catalog with
  | Some s => Some s
  | None => at_index catalog 0
  end.

(** ** Eyebrow index lists *)

Definition LEFT_EYEBROW : list nat := [52; 65; 55; 107; 66; 105; 63; 70; 156]%nat.
Definition RIGHT_EYEBROW : list nat := [282; 295; 285; 336; 296; 334; 293; 300; 383]%nat.

Inductive Side := L | R.

(** ** The filled-polygon renderer (earlier revision of the page) *)

Module FillVariant.

(** The callback of the first [indices.forEach]. *)
Definition plot (landmarks : list Landmark) (style : EyebrowStyle)
    (i idx : nat) : Draw unit :=
  let lm := at_index landmarks i in
  if is_undefined lm then ret tt else
  lmx <- prop lm_x lm ;;
  w <- width ;;
  let x := lmx * w in
  lmy <- prop lm_y lm ;;
  h <- height ;;
  let y := (lmy + offsetY style) * h in
  if (idx =? 0)%nat then emit (MoveTo x y) else emit (LineTo x y).

(** The callback of the second [indices.forEach], scaled around the
    anchor [(0.5 w, 0.4 h)]. *)
Definition plotScaled (landmarks : list Landmark) (style : EyebrowStyle)
    (scale : float) (i idx : nat) : Draw unit :=
  let lm := at_index landmarks i in
  if is_undefined lm then ret tt else
  w <- width ;;
  let cx := 0.5 * w in
  h <- height ;;
  let cy := 0.4 * h in
  lmx <- prop lm_x lm ;;
  let baseX := lmx * w in
  lmy <- prop lm_y lm ;;
  let baseY := (lmy + offsetY style) * h in
  let x := cx + (baseX - cx) * scale in
  let y := cy + (baseY - cy) * scale in
  if (idx =? 0)%nat then emit (MoveTo x y) else emit (LineTo x y).

Definition drawOneSide (landmarks : list Landmark) (indices : list nat)
    (style : EyebrowStyle) : Draw unit :=
  if (length indices =? 0)%nat then ret tt else
  emit (SetFillStyle (color style)) ;;
  emit Save ;;
  emit (SetFilter "blur(0.6px)") ;;
  emit BeginPath ;;
  forEach (plot landmarks style) indices ;;
  emit ClosePath ;;
  emit Fill ;;
  (if 1 <? thickness style then
     let scale := 1 + (thickness style - 1) * 0.06 in
     emit BeginPath ;;
     forEach (plotScaled landmarks style scale) indices ;;
     emit ClosePath ;;
     emit Fill
   else ret tt) ;;
  emit Restore.

Definition drawEyebrows (landmarks : list Landmark) (style : EyebrowStyle)
  : Draw unit :=
  drawOneSide landmarks LEFT_EYEBROW style ;;
  drawOneSide landmarks RIGHT_EYEBROW style.

End FillVariant.

(** ** The smoothed-stroke renderer (current revision of the page) *)

(** [getArchStrength] *)
Definition getArchStrength (styleId : string) : float :=
  if String.eqb styleId "natural" then 0.0
  else if String.eqb styleId "soft-flat" then 0.003
  else if String.eqb styleId "flat" then 0.0015
  else if String.eqb styleId "arch" then 0.007
  else if String.eqb styleId "strong-arch" then 0.011
  else 0.003.

(** The [smoothPath] closure of [drawOneSide]. *)
Definition smoothPath (pts : list Point) : Draw unit :=
  if (length pts <? 2)%nat then ret tt else
  emit BeginPath ;;
  x0 <- prop px (at_index pts 0) ;;
  y0 <- prop py (at_index pts 0) ;;
  emit (MoveTo x0 y0) ;;
  for_up (length pts - 1 - 1) 1 (fun i =>
    let curr := at_index pts i in
    let next := at_index pts (i + 1) in
    cx <- prop px curr ;;
    nx <- prop px next ;;
    let midX := (cx + nx) / 2 in
    cy <- prop py curr ;;
    ny <- prop py next ;;
    let midY := (cy + ny) / 2 in
    emit (QuadraticCurveTo cx cy midX midY)) ;;
  let last := at_index pts (length pts - 1) in
  lx <- prop px last ;;
  ly <- prop py last ;;
  emit (LineTo lx ly).

Section StrokeVariant.

(** [Math.sin], which the language leaves to the engine. *)
Variable sin : float -> float.

(** The callback of [indices.map] that builds [points]. *)
Definition pointOf (landmarks : list Landmark) (indices : list nat)
    (w h archStrength offsetYpx : float) (i idx : nat) : Draw Point :=
  let lm := at_index landmarks i in
  if is_undefined lm then ret (mkPoint 0 0) else
  let t := if (length indices =? 1)%nat then 0.5
           else num idx / (num (length indices) - 1) in
  lmx <- prop lm_x lm ;;
  let x := lmx * w in
  lmy <- prop lm_y lm ;;
  let y := lmy * h + offsetYpx in
  let arch := (- archStrength) * h * sin (PI * t) in
  let y := y + arch in
  ret (mkPoint x y).

(** The [points] array of [drawOneSide]. *)
Definition computePoints (landmarks : list Landmark) (indices : list nat)
    (style : EyebrowStyle) : Draw (list Point) :=
  w <- width ;;
  h <- height ;;
  let archStrength := getArchStrength (id style) in
  let offsetYpx := offsetY style * h in
  mapi (pointOf landmarks indices w h archStrength offsetYpx) indices.

Definition drawOneSide (landmarks : list Landmark) (indices : list nat)
    (style : EyebrowStyle) (side : Side) : Draw unit :=
  if (length indices =? 0)%nat then ret tt else
  h <- height ;;
  let baseWidth := h * 0.012 in
  let lineWidth := baseWidth * thickness style in
  points <- computePoints landmarks indices style ;;
  emit Save ;;
  emit (SetFilter "blur(0.6px)") ;;
  emit (SetStrokeStyle (color style)) ;;
  emit (SetLineWidth lineWidth) ;;
  emit (SetLineCap "round") ;;
  emit (SetLineJoin "round") ;;
  smoothPath points ;;
  emit Stroke ;;
  let spread := lineWidth * 0.18 in
  let shiftedUp := map (fun p => mkPoint (px p) (py p - spread)) points in
  let shiftedDown := map (fun p => mkPoint (px p) (py p + spread)) points in
  emit (SetGlobalAlpha 0.8) ;;
  smoothPath shiftedUp ;;
  emit Stroke ;;
  emit (SetGlobalAlpha 0.7) ;;
  smoothPath shiftedDown ;;
  emit Stroke ;;
  emit Restore.

Definition drawEyebrows (landmarks : list Landmark) (style : EyebrowStyle)
  : Draw unit :=
  drawOneSide landmarks LEFT_EYEBROW style L ;;
  drawOneSide landmarks RIGHT_EYEBROW style R.

End StrokeVariant.

(** ** The frame loop *)

(** What the page keeps between iterations: the drawing context of the
    canvas, [lastVideoTimeRef.current], the timestamps handed to
    [detectForVideo] so far (oldest first) and the number of animation
    frames requested. *)
Record Page := mkPage {
  ctx : Ctx;
  lastVideoTime : float;
  detectCalls : list float;
  requested : nat
}.

(** What one iteration observes: the video element, the landmarker ref and
    the state captured by the effect, the clock, and what the landmarker
    answers for this frame ([result.faceLandmarks]). *)
Record Frame := mkFrame {
  readyState : nat;
  videoWidth : float;
  videoHeight : float;
  landmarkerRef : bool;
  landmarkerReady : bool;
  selectedStyleId : string;
  now : float;
  faceLandmarks : option (list (list Landmark))
}.

(** A canvas computation run on the page's context. *)
Definition onCanvas {A} (d : Draw A) : Eff Page A :=
  fun p =>
    let '(r, c) := d (ctx p) in
    (r, mkPage c (lastVideoTime p) (detectCalls p) (requested p)).

Definition requestAnimationFrame : Eff Page unit :=
  fun p => (Normal tt, mkPage (ctx p) (lastVideoTime p) (detectCalls p) (S (requested p))).

(** [canvas.width = vw; canvas.height = vh] *)
Definition resize (vw vh : float) : Draw unit :=
  fun c => (Normal tt, mkCtx vw vh (ops c)).

Definition getLastVideoTime : Eff Page float :=
  fun p => (Normal (lastVideoTime p), p).

Definition setLastVideoTime (t : float) : Eff Page unit :=
  fun p => (Normal tt, mkPage (ctx p) t (detectCalls p) (requested p)).

(** [landmarkerRef.current.detectForVideo(video, nowInMs)]: the call is
    recorded with its timestamp and answers with the frame's result. *)
Definition detectForVideo (f : Frame) (nowInMs : float)
  : Eff Page (option (list (list Landmark))) :=
  fun p =>
    (Normal (faceLandmarks f),
     mkPage (ctx p) (lastVideoTime p) (detectCalls p ++ [nowInMs]) (requested p)).

Section FrameLoop.

Variable sin : float -> float.

(** The [render] callback. *)
Definition render (f : Frame) : Eff Page unit :=
  requestAnimationFrame ;;
  if (readyState f <? 2)%nat then ret tt else
  let vw := videoWidth f in
  let vh := videoHeight f in
  if falsy vw || falsy vh then ret tt else
  w <- onCanvas width ;;
  h <- onCanvas height ;;
  (if negb (w =? vw) || negb (h =? vh)
   then onCanvas (resize vw vh) else ret tt) ;;
  onCanvas (emit (DrawImage vw vh)) ;;
  if negb (landmarkerRef f) || negb (landmarkerReady f) then ret tt else
  let nowInMs := now f in
  last <- getLastVideoTime ;;
  if last =? nowInMs then ret tt else
  setLastVideoTime nowInMs ;;
  result <- detectForVideo f nowInMs ;;
  if is_undefined result
     || match result with Some faces => (length faces =? 0)%nat | None => false end
  then ret tt else
  faces <- prop (fun faces => faces) result ;;
  landmarks <- prop (fun lms => lms) (at_index faces 0) ;;
  style <- prop (fun s => s) (resolveStyle styles (selectedStyleId f)) ;;
  onCanvas (drawEyebrows sin landmarks style).

(** The loop: one [render] per animation frame; the promise an iteration
    returns is dropped, so its completion does not reach the next one. *)
Fixpoint run (frames : list Frame) (p : Page) : Page :=
  match frames with
  | [] => p
  | f :: rest => run rest (snd (render f p))
  end.

End FrameLoop.

(** The page as the component mounts it: an empty 300 x 150 canvas and
    [lastVideoTimeRef] at -1. *)
Definition initialPage : Page :=
  mkPage (mkCtx 300 150 []) (-1) [] 0.

(** ** The capture store *)

(** [handleCapture] with the state update it queues: [canvasRef] is the data
    URL that [canvasRef.current.toDataURL] gives, when the canvas is mounted,
    and [dateNow] the reading of [Date.now()] that the updater takes. *)
Definition handleCapture (canvasRef : option string) (dateNow : float)
    (captures : list Capture) : list Capture :=
  match canvasRef with
  | None => captures
  | Some dataURL => mkCapture dataURL dateNow :: captures
  end.

(** A polynomial stand-in for the engine's sine (the Taylor expansion up to
    the thirteenth power), to run the renderer on concrete inputs. *)
Definition sin_poly (x : float) : float :=
  let x2 := x * x in
  x * (1 - x2 / 6 * (1 - x2 / 20 * (1 - x2 / 42 * (1 - x2 / 72 *
      (1 - x2 / 110 * (1 - x2 / 156)))))).

(** ** The first revision of the page: landmarks, one fixed colour *)

Module Revision1.

(** The callback of [indices.forEach]. *)
Definition plot (landmarks : list Landmark) (i idx : nat) : Draw unit :=
  let lm := at_index landmarks i in
  if is_undefined lm then ret tt else
  lmx <- prop lm_x lm ;;
  w <- width ;;
  let x := lmx * w in
  lmy <- prop lm_y lm ;;
  h <- height ;;
  let y := lmy * h in
  if (idx =? 0)%nat then emit (MoveTo x y) else emit (LineTo x y).

Definition drawOneSide (landmarks : list Landmark) (indices : list nat)
    (color : string) : Draw unit :=
  if (length indices =? 0)%nat then ret tt else
  emit (SetFillStyle color) ;;
  emit BeginPath ;;
  forEach (plot landmarks) indices ;;
  emit ClosePath ;;
  emit Fill.

Definition drawEyebrows (landmarks : list Landmark) : Draw unit :=
  drawOneSide landmarks LEFT_EYEBROW "rgba(60, 40, 30, 0.8)" ;;
  drawOneSide landmarks RIGHT_EYEBROW "rgba(60, 40, 30, 0.8)".

(** The [render] callback of this revision. *)
Definition render (f : Frame) : Eff Page unit :=
  requestAnimationFrame ;;
  if (readyState f <? 2)%nat then ret tt else
  let vw := videoWidth f in
  let vh := videoHeight f in
  if falsy vw || falsy vh then ret tt else
  w <- onCanvas width ;;
  h <- onCanvas height ;;
  (if negb (w =? vw) || negb (h =? vh)
   then onCanvas (resize vw vh) else ret tt) ;;
  onCanvas (emit (DrawImage vw vh)) ;;
  if negb (landmarkerRef f) || negb (landmarkerReady f) then ret tt else
  let nowInMs := now f in
  last <- getLastVideoTime ;;
  if last =? nowInMs then ret tt else
  setLastVideoTime nowInMs ;;
  result <- detectForVideo f nowInMs ;;
  if is_undefined result
     || match result with Some faces => (length faces =? 0)%nat | None => false end
  then ret tt else
  faces <- prop (fun faces => faces) result ;;
  landmarks <- prop (fun lms => lms) (at_index faces 0) ;;
  onCanvas (drawEyebrows landmarks).

End Revision1.

(** ** The revision without landmarks: video to canvas only *)

Module Revision2.

(** The [render] callback of this revision; of the frame it reads the video
    element only. *)
Definition render (f : Frame) : Eff Page unit :=
  requestAnimationFrame ;;
  if (readyState f <? 2)%nat then ret tt else
  let vw := videoWidth f in
  let vh := videoHeight f in
  if falsy vw || falsy vh then ret tt else
  w <- onCanvas width ;;
  h <- onCanvas height ;;
  (if negb (w =? vw) || negb (h =? vh)
   then onCanvas (resize vw vh) else ret tt) ;;
  onCanvas (emit (DrawImage vw vh)).

End Revision2.

(** ** The effect that starts the loop *)

(** The body of the third [useEffect]: it returns at once unless the camera
    is ready, both refs are set and the canvas gives a 2D context; otherwise
    [render] runs once per animation frame. *)
Definition renderEffect (sin : float -> float)
    (cameraReady videoRef canvasRef getContext : bool)
    (frames : list Frame) (p : Page) : Page :=
  if negb cameraReady || negb videoRef || negb canvasRef then p
  else if negb getContext then p
  else run sin frames p.

(** ** Camera and landmarker start-up *)

Module Startup.

(** The state the two start-up effects read and write: the [errorMsg],
    [cameraReady] and [landmarkerReady] states, [landmarkerRef.current]
    (set or not), the [stream] variable of the camera effect, the video
    element's [srcObject] and [onloadedmetadata] handler (registered or not),
    whether [play] was called, and the streams whose tracks were stopped. *)
Record State := mkState {
  errorMsg : option string;
  cameraReady : bool;
  landmarkerReady : bool;
  landmarkerRef : bool;
  stream : option nat;
  srcObject : option nat;
  onloadedmetadata : bool;
  playing : bool;
  stopped : list nat
}.

Definition initial : State :=
  mkState None false false false None None false false [].

Definition cameraMsg : string :=
  "카메라에 접근할 수 없습니다. 브라우저 권한을 확인하세요.".

Definition modelMsg : string := "얼굴 인식 모델을 불러오지 못했습니다.".

Definition setErrorMsg (m : option string) (st : State) : State :=
  mkState m (cameraReady st) (landmarkerReady st) (landmarkerRef st) (stream st)
          (srcObject st) (onloadedmetadata st) (playing st) (stopped st).

(** [startCamera] up to its [await]: the message is cleared and the stream
    is requested. *)
Definition startCamera (st : State) : State := setErrorMsg None st.

(** [startCamera] after [getUserMedia] resolved with the stream [s]; the
    video element is attached when [videoRef.current] is set. *)
Definition startCamera_resolved (s : nat) (videoRef : bool) (st : State) : State :=
  if videoRef then
    mkState (errorMsg st) (cameraReady st) (landmarkerReady st) (landmarkerRef st)
            (Some s) (Some s) true (playing st) (stopped st)
  else
    mkState (errorMsg st) (cameraReady st) (landmarkerReady st) (landmarkerRef st)
            (Some s) (srcObject st) (onloadedmetadata st) (playing st) (stopped st).

(** The [catch] of [startCamera]. *)
Definition startCamera_rejected (st : State) : State :=
  setErrorMsg (Some cameraMsg) st.

(** The video element fires [loadedmetadata]: the registered handler calls
    [videoRef.current?.play()] and [setCameraReady(true)]. *)
Definition loadedmetadata (videoRef : bool) (st : State) : State :=
  if onloadedmetadata st then
    mkState (errorMsg st) true (landmarkerReady st) (landmarkerRef st) (stream st)
            (srcObject st) (onloadedmetadata st) (playing st || videoRef) (stopped st)
  else st.

(** The cleanup of the camera effect. *)
Definition cleanup (st : State) : State :=
  match stream st with
  | Some s =>
      mkState (errorMsg st) (cameraReady st) (landmarkerReady st) (landmarkerRef st)
              (stream st) (srcObject st) (onloadedmetadata st) (playing st)
              (stopped st ++ [s])
  | None => st
  end.

(** [initLandmarker] after both of its [await]s resolved. *)
Definition initLandmarker_resolved (st : State) : State :=
  mkState (errorMsg st) (cameraReady st) true true (stream st)
          (srcObject st) (onloadedmetadata st) (playing st) (stopped st).

(** The [catch] of [initLandmarker]. *)
Definition initLandmarker_rejected (st : State) : State :=
  setErrorMsg (Some modelMsg) st.

(** What can happen to the page during start-up, one handler at a time. *)
Inductive Event :=
| CameraStart
| CameraGranted (s : nat) (videoRef : bool)
| CameraDenied
| LoadedMetadata (videoRef : bool)
| CameraCleanup
| ModelLoaded
| ModelFailed.

Definition step (e : Event) (st : State) : State :=
  match e with
  | CameraStart => startCamera st
  | CameraGranted s videoRef => startCamera_resolved s videoRef st
  | CameraDenied => startCamera_rejected st
  | LoadedMetadata videoRef => loadedmetadata videoRef st
  | CameraCleanup => cleanup st
  | ModelLoaded => initLandmarker_resolved st
  | ModelFailed => initLandmarker_rejected st
  end.

(** The handlers run to completion one after the other. *)
Definition run (events : list Event) (st : State) : State :=
  fold_left (fun st e => step e st) events st.

End Startup.

(** * Definitions used by the statements *)

(** The context [c] after the further calls [l]. *)
Definition extend (c : Ctx) (l : list CanvasOp) : Ctx :=
  mkCtx (canvas_width c) (canvas_height c) (ops c ++ l).

(** [d] completes normally from [c] with value [a], having made exactly the
    calls [l]. *)
Definition draws {A} (d : Draw A) (c : Ctx) (a : A) (l : list CanvasOp) : Prop :=
  d c = (Normal a, extend c l).

(** The array that [mapi_from] builds when the callback is the pure [g]. *)
Fixpoint mapi_pure {A B} (g : A -> nat -> B) (from : nat) (l : list A) : list B :=
  match l with
  | [] => []
  | a :: l' => g a from :: mapi_pure g (S from) l'
  end.

(** The calls of a [forEach] whose callback makes the calls [g a idx]. *)
Fixpoint forEach_ops {A} (g : A -> nat -> list CanvasOp) (from : nat) (l : list A)
  : list CanvasOp :=
  match l with
  | [] => []
  | a :: l' => g a from ++ forEach_ops g (S from) l'
  end.

(** The [i]-th point of [pts]. *)
Definition pointAt (pts : list Point) (i : nat) : Point := nth i pts (mkPoint 0 0).

(** The middle of two points. *)
Definition midpoint (p q : Point) : Point :=
  mkPoint ((px p + px q) / 2) ((py p + py q) / 2).

(** The quadratic curve with control point [p] that ends at [q]. *)
Definition curveTo (p q : Point) : CanvasOp :=
  QuadraticCurveTo (px p) (py p) (px q) (py q).

(** The calls of [smoothPath pts]. *)
Definition smoothOps (pts : list Point) : list CanvasOp :=
  if (length pts <? 2)%nat then []
  else
    BeginPath
      :: MoveTo (px (pointAt pts 0)) (py (pointAt pts 0))
      :: map (fun i => curveTo (pointAt pts i)
                               (midpoint (pointAt pts i) (pointAt pts (i + 1))))
             (seq 1 (length pts - 1 - 1))
      ++ [LineTo (px (pointAt pts (length pts - 1))) (py (pointAt pts (length pts - 1)))].

(** Three points, one of them interior. *)
Definition three_points : list Point := [mkPoint 0 0; mkPoint 10 4; mkPoint 20 0].

Section StrokeCalls.

Variable sin : float -> float.

(** The position [t] of the [idx]-th entry along [indices]. *)
Definition archT (indices : list nat) (idx : nat) : float :=
  if (length indices =? 1)%nat then 0.5
  else num idx / (num (length indices) - 1).

(** The arch displacement of the [idx]-th entry. *)
Definition archAt (indices : list nat) (style : EyebrowStyle) (h : float)
    (idx : nat) : float :=
  (- getArchStrength (id style)) * h * sin (PI * archT indices idx).

(** The point that the callback of [indices.map] returns. *)
Definition pointVal (landmarks : list Landmark) (indices : list nat)
    (style : EyebrowStyle) (w h : float) (i idx : nat) : Point :=
  match at_index landmarks i with
  | None => mkPoint 0 0
  | Some lm =>
      mkPoint (lm_x lm * w)
              (lm_y lm * h + offsetY style * h + archAt indices style h idx)
  end.

(** The [points] array. *)
Definition pointsOf (landmarks : list Landmark) (indices : list nat)
    (style : EyebrowStyle) (w h : float) : list Point :=
  mapi_pure (pointVal landmarks indices style w h) 0 indices.

(** The calls of [drawOneSide] on a non-empty index list, given the
    canvas height and the [points] array. *)
Definition strokeOps (style : EyebrowStyle) (h : float) (points : list Point)
  : list CanvasOp :=
  let lineWidth := h * 0.012 * thickness style in
  let spread := lineWidth * 0.18 in
  [Save; SetFilter "blur(0.6px)"; SetStrokeStyle (color style);
   SetLineWidth lineWidth; SetLineCap "round"; SetLineJoin "round"]
    ++ smoothOps points
    ++ [Stroke; SetGlobalAlpha 0.8]
    ++ smoothOps (map (fun p => mkPoint (px p) (py p - spread)) points)
    ++ [Stroke; SetGlobalAlpha 0.7]
    ++ smoothOps (map (fun p => mkPoint (px p) (py p + spread)) points)
    ++ [Stroke; Restore].

End StrokeCalls.

(** A landmark set that stops at index 99: the left eyebrow misses its
    indices 105, 107 and 156, the right eyebrow is not covered at all. *)
Definition sample_landmarks : list Landmark :=
  repeat (mkLandmark 0.5 0.4) 100.

(** The fourth catalog entry. *)
Definition arch_style : EyebrowStyle :=
  mkStyle "arch" "아치" "rgba(55, 35, 25, 0.85)" 1.4 (-0.01).

(** An empty 1280 x 720 canvas. *)
Definition hd_canvas : Ctx := mkCtx 1280 720 [].

(** The call of [FillVariant.plot] for the index [i] at position [idx]: none
    when the landmark is missing. *)
Definition plotOps (landmarks : list Landmark) (style : EyebrowStyle)
    (w h : float) (i idx : nat) : list CanvasOp :=
  match at_index landmarks i with
  | None => []
  | Some lm =>
      let x := lm_x lm * w in
      let y := (lm_y lm + offsetY style) * h in
      [if (idx =? 0)%nat then MoveTo x y else LineTo x y]
  end.

(** The same for [FillVariant.plotScaled]. *)
Definition plotScaledOps (landmarks : list Landmark) (style : EyebrowStyle)
    (scale w h : float) (i idx : nat) : list CanvasOp :=
  match at_index landmarks i with
  | None => []
  | Some lm =>
      let cx := 0.5 * w in
      let cy := 0.4 * h in
      let x := cx + (lm_x lm * w - cx) * scale in
      let y := cy + ((lm_y lm + offsetY style) * h - cy) * scale in
      [if (idx =? 0)%nat then MoveTo x y else LineTo x y]
  end.

(** The calls of [FillVariant.drawOneSide] on a non-empty index list. *)
Definition fillOps (landmarks : list Landmark) (indices : list nat)
    (style : EyebrowStyle) (w h : float) : list CanvasOp :=
  [SetFillStyle (color style); Save; SetFilter "blur(0.6px)"; BeginPath]
    ++ forEach_ops (plotOps landmarks style w h) 0 indices
    ++ [ClosePath; Fill]
    ++ (if 1 <? thickness style then
          [BeginPath]
            ++ forEach_ops
                 (plotScaledOps landmarks style (1 + (thickness style - 1) * 0.06) w h)
                 0 indices
            ++ [ClosePath; Fill]
        else [])
    ++ [Restore].

(** The first catalog entry. *)
Definition natural_style : EyebrowStyle :=
  mkStyle "natural" "내추럴" "rgba(60, 40, 30, 0.75)" 1.0 0.0.

(** [Number.isFinite] *)
Definition finite (x : float) : bool := abs x <? infinity.

(** A zero of either sign. *)
Definition zero (x : float) : Prop := exists s, Prim2SF x = S754_zero s.

(** Every vertical coordinate of the call [op] is the row [r]. *)
Definition on_row (r : float) (op : CanvasOp) : Prop :=
  match op with
  | MoveTo _ y | LineTo _ y => y = r
  | QuadraticCurveTo _ cpy _ y => cpy = r /\ y = r
  | _ => True
  end.

(** A full landmark set (478 points) whose points all lie at y = 0.4. *)
Definition level_landmarks : list Landmark := repeat (mkLandmark 0.5 0.4) 478.

(** The iteration gets as far as reading the clock: the video has data and
    a size, and the landmarker is there and ready. *)
Definition reachesInference (f : Frame) : bool :=
  negb (readyState f <? 2)%nat
  && negb (falsy (videoWidth f) || falsy (videoHeight f))
  && landmarkerRef f && landmarkerReady f.

(** The part of the page that inference deduplication reads and writes. *)
Definition timing (p : Page) : float * list float := (lastVideoTime p, detectCalls p).

(** [m] leaves the clock state alone, however it completes. *)
Definition keeps {A} (m : Eff Page A) : Prop :=
  forall p, timing (snd (m p)) = timing p.

(** [m] completes normally and leaves the clock state alone. *)
Definition passes {A} (m : Eff Page A) : Prop :=
  forall p, exists a p', m p = (Normal a, p') /\ timing p' = timing p.

(** Clock readings that never go back, as [performance.now()] gives them. *)
Fixpoint nondecreasing (ts : list float) : Prop :=
  match ts with
  | a :: (b :: _) as rest => (a <=? b) = true /\ nondecreasing rest
  | _ => True
  end.

(** Each timestamp is strictly below all the later ones. *)
Fixpoint increasing (ts : list float) : Prop :=
  match ts with
  | [] => True
  | a :: rest => Forall (fun b => (a <? b) = true) rest /\ increasing rest
  end.

(** No two entries of [ts] are the same number. *)
Definition pairwise_distinct (ts : list float) : Prop :=
  forall i j a b, (i < j)%nat ->
    nth_error ts i = Some a -> nth_error ts j = Some b -> (a =? b) = false.

(** What the loop relies on before the frames [fs]: the recorded calls are
    increasing and, when there are some, none exceeds the last processed
    timestamp, which the next clock reading does not precede. *)
Definition in_step (p : Page) (fs : list Frame) : Prop :=
  increasing (detectCalls p)
  /\ match fs with
     | [] => True
     | f :: _ =>
         detectCalls p = []
         \/ (Forall (fun t => (t <=? lastVideoTime p) = true) (detectCalls p)
             /\ (lastVideoTime p <=? now f) = true)
     end.

(** A frame that reaches the inference step at clock reading [t]. *)
Definition frame_at (t : float) : Frame :=
  mkFrame 4 640 480 true true "arch" t (Some [sample_landmarks]).

(** ** Definitions for the further properties *)

(** The style the loop draws with. *)
Definition selectedStyle (sid : string) : EyebrowStyle :=
  match resolveStyle styles sid with
  | Some s => s
  | None => natural_style
  end.

(** The video has data and a size: the iteration gets past its first two
    tests. *)
Definition videoReady (f : Frame) : bool :=
  negb (readyState f <? 2)%nat
  && negb (falsy (videoWidth f) || falsy (videoHeight f)).

(** The canvas after the size test of an iteration: set to the size of the
    video when one of its dimensions differs. *)
Definition sized (f : Frame) (c : Ctx) : Ctx :=
  if negb (canvas_width c =? videoWidth f) || negb (canvas_height c =? videoHeight f)
  then mkCtx (videoWidth f) (videoHeight f) (ops c)
  else c.

(** The iteration calls [detectForVideo]. *)
Definition detects (f : Frame) (p : Page) : bool :=
  reachesInference f && negb (lastVideoTime p =? now f).

(** The calls [drawEyebrows] adds in an iteration on the canvas [c]. *)
Definition overlayOps (sin : float -> float) (f : Frame) (p : Page) (c : Ctx)
  : list CanvasOp :=
  if detects f p then
    match faceLandmarks f with
    | Some (landmarks :: _) =>
        let style := selectedStyle (selectedStyleId f) in
        strokeOps style (canvas_height c)
          (pointsOf sin landmarks LEFT_EYEBROW style (canvas_width c) (canvas_height c))
        ++ strokeOps style (canvas_height c)
             (pointsOf sin landmarks RIGHT_EYEBROW style (canvas_width c) (canvas_height c))
    | _ => []
    end
  else [].

(** The page after one iteration of [render]. *)
Definition renderPage (sin : float -> float) (f : Frame) (p : Page) : Page :=
  if videoReady f then
    let c := sized f (ctx p) in
    mkPage (extend c (DrawImage (videoWidth f) (videoHeight f) :: overlayOps sin f p c))
           (if detects f p then now f else lastVideoTime p)
           (if detects f p then detectCalls p ++ [now f] else detectCalls p)
           (S (requested p))
  else mkPage (ctx p) (lastVideoTime p) (detectCalls p) (S (requested p)).

(** The frame [f] with another inference result. *)
Definition withFaces (f : Frame) (faces : option (list (list Landmark))) : Frame :=
  mkFrame (readyState f) (videoWidth f) (videoHeight f) (landmarkerRef f)
          (landmarkerReady f) (selectedStyleId f) (now f) faces.

(** No two neighbours in [ts] are the same number. *)
Definition adjacent_distinct (ts : list float) : Prop :=
  forall l1 a b l2, ts = l1 ++ a :: b :: l2 -> (a =? b) = false.

(** A frame whose video has no data yet. *)
Definition loading_frame : Frame :=
  mkFrame 1 0 0 false false "natural" 5 None.

(** The last processed timestamp is that of the latest inference call. *)
Definition tracks_last_call (p : Page) : Prop :=
  detectCalls p = [] \/ exists earlier, detectCalls p = earlier ++ [lastVideoTime p].

(** A call that builds the current path. *)
Definition path_call (op : CanvasOp) : Prop :=
  match op with
  | BeginPath | MoveTo _ _ | LineTo _ _ | QuadraticCurveTo _ _ _ _ => True
  | _ => False
  end.

(** The call is [stroke], [fill], [moveTo], [lineTo]. *)
Definition is_stroke (op : CanvasOp) : bool :=
  match op with Stroke => true | _ => false end.

Definition is_fill (op : CanvasOp) : bool :=
  match op with Fill => true | _ => false end.

Definition is_moveTo (op : CanvasOp) : bool :=
  match op with MoveTo _ _ => true | _ => false end.

Definition is_lineTo (op : CanvasOp) : bool :=
  match op with LineTo _ _ => true | _ => false end.

(** A call that saves or restores the context state, or fills or closes a path. *)
Definition state_or_fill_call (op : CanvasOp) : Prop :=
  match op with
  | Save | Restore | Fill | ClosePath | SetFillStyle _ | DrawImage _ _ => True
  | _ => False
  end.

(** The landmark [lm] moved by [o] along y. *)
Definition raise (o : float) (lm : Landmark) : Landmark :=
  mkLandmark (lm_x lm) (lm_y lm + o).

(** The index [i] has a landmark in [landmarks]. *)
Definition present (landmarks : list Landmark) (i : nat) : bool :=
  (i <? length landmarks)%nat.



(** The page after one iteration of [Revision2.render]. *)
Definition renderPage2 (f : Frame) (p : Page) : Page :=
  if videoReady f then
    mkPage (extend (sized f (ctx p)) [DrawImage (videoWidth f) (videoHeight f)])
           (lastVideoTime p) (detectCalls p) (S (requested p))
  else mkPage (ctx p) (lastVideoTime p) (detectCalls p) (S (requested p)).



(** A series of capture triggers, oldest first: what [canvasRef.current]
    gives and the clock reading of each. *)
Definition captureAll (triggers : list (option string * float))
    (captures : list Capture) : list Capture :=
  fold_left (fun cs t => handleCapture (fst t) (snd t) cs) triggers captures.

(** The records of the triggers that found the canvas, oldest first. *)
Definition taken (triggers : list (option string * float)) : list Capture :=
  flat_map (fun t => match fst t with
                     | Some dataURL => [mkCapture dataURL (snd t)]
                     | None => []
                     end) triggers.

(** * Properties *)

(** ** Running canvas computations *)

Lemma extend_nil c : extend c [] = c.
Proof. destruct c; unfold extend; simpl; now rewrite app_nil_r. Qed.

Lemma extend_extend c l1 l2 : extend (extend c l1) l2 = extend c (l1 ++ l2).
Proof. unfold extend; simpl; now rewrite app_assoc. Qed.

Lemma canvas_width_extend c l : canvas_width (extend c l) = canvas_width c.
Proof. reflexivity. Qed.

Lemma canvas_height_extend c l : canvas_height (extend c l) = canvas_height c.
Proof. reflexivity. Qed.

Lemma ops_extend c l : ops (extend c l) = ops c ++ l.
Proof. reflexivity. Qed.

Lemma draws_ret {A} (a : A) c : draws (ret a) c a [].
Proof. unfold draws, ret; now rewrite extend_nil. Qed.

Lemma draws_emit op c : draws (emit op) c tt [op].
Proof. reflexivity. Qed.

Lemma draws_width c : draws width c (canvas_width c) [].
Proof. unfold draws, width; now rewrite extend_nil. Qed.

Lemma draws_height c : draws height c (canvas_height c) [].
Proof. unfold draws, height; now rewrite extend_nil. Qed.

Lemma draws_bind {A B} (m : Draw A) (k : A -> Draw B) c a l1 b l2 :
  draws m c a l1 -> draws (k a) (extend c l1) b l2 ->
  draws (bind m k) c b (l1 ++ l2).
Proof.
  unfold draws, bind; intros Hm Hk.
  rewrite Hm, Hk, extend_extend; reflexivity.
Qed.

Lemma draws_prop {A B} (f : A -> B) (a : A) c :
  draws (prop f (Some a)) c (f a) [].
Proof. apply draws_ret. Qed.

(** A step that makes no call can be skipped over. *)
Lemma draws_bind_silent {A B} (m : Draw A) (k : A -> Draw B) c a b l :
  draws m c a [] -> draws (k a) c b l -> draws (bind m k) c b l.
Proof.
  intros Hm Hk. change l with ([] ++ l).
  eapply draws_bind; [exact Hm | now rewrite extend_nil].
Qed.

(** A step that makes one call. *)
Lemma draws_bind_emit {B} op (k : unit -> Draw B) c b l :
  draws (k tt) (extend c [op]) b l -> draws (bind (emit op) k) c b (op :: l).
Proof.
  intros Hk. change (op :: l) with ([op] ++ l).
  eapply draws_bind; [apply draws_emit | exact Hk].
Qed.

(** ** Index-wise maps and loops *)

Lemma mapi_pure_length {A B} (g : A -> nat -> B) l :
  forall from, length (mapi_pure g from l) = length l.
Proof. induction l as [|a l IH]; intros from; simpl; [reflexivity | now rewrite IH]. Qed.

Lemma mapi_pure_nth {A B} (g : A -> nat -> B) l :
  forall from idx,
    nth_error (mapi_pure g from l) idx
    = option_map (fun a => g a (from + idx)%nat) (nth_error l idx).
Proof.
  induction l as [|a l IH]; intros from idx.
  - destruct idx; reflexivity.
  - destruct idx as [|idx]; simpl.
    + now rewrite Nat.add_0_r.
    + rewrite IH. now replace (S from + idx)%nat with (from + S idx)%nat by lia.
Qed.

Lemma mapi_pure_Forall {A B} (g : A -> nat -> B) (P : B -> Prop) l :
  forall from,
    (forall idx a, nth_error l idx = Some a -> P (g a (from + idx)%nat)) ->
    Forall P (mapi_pure g from l).
Proof.
  induction l as [|a l IH]; intros from H; simpl; constructor.
  - specialize (H 0%nat a eq_refl). now rewrite Nat.add_0_r in H.
  - apply IH. intros idx b Hb.
    replace (S from + idx)%nat with (from + S idx)%nat by lia.
    now apply H.
Qed.

Lemma mapi_from_draws {A B} (f : A -> nat -> Draw B) (g : A -> nat -> B) c :
  (forall a k, draws (f a k) c (g a k) []) ->
  forall l from, draws (mapi_from f from l) c (mapi_pure g from l) [].
Proof.
  intros Hf. induction l as [|a l IH]; intros from; simpl.
  - apply draws_ret.
  - eapply draws_bind_silent; [apply Hf|].
    eapply draws_bind_silent; [apply IH|].
    apply draws_ret.
Qed.

Lemma forEach_from_draws {A} (f : A -> nat -> Draw unit)
    (g : A -> nat -> list CanvasOp) (w h : float) :
  (forall a k c, canvas_width c = w -> canvas_height c = h ->
                 draws (f a k) c tt (g a k)) ->
  forall l from c, canvas_width c = w -> canvas_height c = h ->
                   draws (forEach_from f from l) c tt (forEach_ops g from l).
Proof.
  intros Hf. induction l as [|a l IH]; intros from c Hw Hh; simpl.
  - apply draws_ret.
  - eapply draws_bind; [now apply Hf | now apply IH].
Qed.

Lemma for_up_draws (body : nat -> Draw unit) (g : nat -> CanvasOp) :
  forall n from c,
    (forall i c', (from <= i < from + n)%nat -> draws (body i) c' tt [g i]) ->
    draws (for_up n from body) c tt (map g (seq from n)).
Proof.
  induction n as [|n IH]; intros from c Hb; simpl.
  - apply draws_ret.
  - change (g from :: map g (seq (S from) n)) with ([g from] ++ map g (seq (S from) n)).
    eapply draws_bind; [apply Hb; lia|].
    apply IH. intros i c' Hi. apply Hb. lia.
Qed.

(** ** The smoothing routine *)

Lemma at_index_pointAt pts i :
  (i < length pts)%nat -> at_index pts i = Some (pointAt pts i).
Proof. intros H. unfold at_index, pointAt. now apply nth_error_nth'. Qed.

Lemma smoothPath_draws pts c : draws (smoothPath pts) c tt (smoothOps pts).
Proof.
  unfold smoothPath, smoothOps.
  destruct (Nat.ltb_spec (length pts) 2) as [Hlt|Hge]; [apply draws_ret|].
  apply draws_bind_emit.
  rewrite (at_index_pointAt pts 0) by lia.
  eapply draws_bind_silent; [apply draws_prop|].
  eapply draws_bind_silent; [apply draws_prop|].
  apply draws_bind_emit.
  eapply draws_bind.
  - apply for_up_draws with
      (g := fun i => curveTo (pointAt pts i)
                             (midpoint (pointAt pts i) (pointAt pts (i + 1)))).
    intros i c' Hi. cbv zeta.
    rewrite (at_index_pointAt pts i), (at_index_pointAt pts (i + 1)) by lia.
    repeat (eapply draws_bind_silent; [apply draws_prop|]).
    apply draws_emit.
  - cbv zeta. rewrite (at_index_pointAt pts (length pts - 1)) by lia.
    repeat (eapply draws_bind_silent; [apply draws_prop|]).
    apply draws_emit.
Qed.

(** C3. For points P0..Pn with n >= 1, [smoothPath] completes normally and
    makes exactly n + 2 calls: [beginPath], [moveTo] P0, then for each
    interior index i (1 <= i <= n - 1), in order, the quadratic curve whose
    control point is Pi and whose end is the midpoint of Pi and Pi+1, and
    last [lineTo] Pn.  The curves are the calls 2..n, so P0 and Pn are never
    control points. *)
Theorem smoothPath_midpoint_quadratics (pts : list Point) (n : nat) (c : Ctx) :
  length pts = S n -> (1 <= n)%nat ->
  exists path,
    smoothPath pts c = (Normal tt, extend c path)
    /\ length path = (n + 2)%nat
    /\ nth_error path 0 = Some BeginPath
    /\ nth_error path 1 = Some (MoveTo (px (pointAt pts 0)) (py (pointAt pts 0)))
    /\ (forall i, (1 <= i <= n - 1)%nat ->
          nth_error path (i + 1)
          = Some (QuadraticCurveTo
                    (px (pointAt pts i)) (py (pointAt pts i))
                    ((px (pointAt pts i) + px (pointAt pts (i + 1))) / 2)
                    ((py (pointAt pts i) + py (pointAt pts (i + 1))) / 2)))
    /\ nth_error path (n + 1) = Some (LineTo (px (pointAt pts n)) (py (pointAt pts n))).
Proof.
  intros Hlen Hn. exists (smoothOps pts).
  split; [apply smoothPath_draws|].
  unfold smoothOps. rewrite Hlen.
  destruct (Nat.ltb_spec (S n) 2) as [Hlt|_]; [lia|].
  replace (S n - 1 - 1)%nat with (n - 1)%nat by lia.
  replace (S n - 1)%nat with n by lia.
  repeat split.
  - simpl. rewrite length_app, length_map, length_seq. simpl. lia.
  - intros i Hi.
    replace (i + 1)%nat with (S (S (i - 1))) at 1 by lia.
    cbn [nth_error].
    rewrite nth_error_app1 by (rewrite length_map, length_seq; lia).
    rewrite nth_error_map, nth_error_seq.
    destruct (Nat.ltb_spec (i - 1) (n - 1)) as [_|Hbad]; [|lia].
    replace (1 + (i - 1))%nat with i by lia. reflexivity.
  - replace (n + 1)%nat with (S (S (n - 1))) by lia.
    cbn [nth_error].
    rewrite nth_error_app2 by (rewrite length_map, length_seq; lia).
    rewrite length_map, length_seq, Nat.sub_diag. reflexivity.
Qed.

Lemma smoothPath_midpoint_quadratics_witness :
  exists path,
    smoothPath three_points (mkCtx 640 480 []) = (Normal tt, extend (mkCtx 640 480 []) path)
    /\ length path = 4%nat
    /\ nth_error path 0 = Some BeginPath
    /\ nth_error path 1 = Some (MoveTo 0 0)
    /\ nth_error path 2 = Some (QuadraticCurveTo 10 4 15 2)
    /\ nth_error path 3 = Some (LineTo 20 0).
Proof.
  destruct (smoothPath_midpoint_quadratics three_points 2 (mkCtx 640 480 [])
              eq_refl (le_S 1 1 (le_n 1)))
    as (path & Hrun & Hlen & H0 & H1 & Hq & Hl).
  exists path. repeat split; try assumption.
  exact (Hq 1%nat (conj (le_n 1) (le_n 1))).
Defined.

(** C10. An empty index list makes [drawOneSide] return at once, and a
    point list shorter than two makes [smoothPath] do the same: both
    complete normally and leave the context as it was. *)
Theorem empty_input_draws_nothing (sin : float -> float) :
  (forall landmarks style side c,
      drawOneSide sin landmarks [] style side c = (Normal tt, c))
  /\ (forall c, smoothPath [] c = (Normal tt, c))
  /\ (forall p c, smoothPath [p] c = (Normal tt, c)).
Proof. repeat split. Qed.

(** ** The points of the stroke renderer *)

Section StrokeFacts.

Variable sin : float -> float.

Lemma pointOf_draws landmarks indices style w h i idx c :
  draws (pointOf sin landmarks indices w h (getArchStrength (id style))
                 (offsetY style * h) i idx)
        c (pointVal sin landmarks indices style w h i idx) [].
Proof.
  unfold pointOf, pointVal, archAt, archT. cbv zeta.
  destruct (at_index landmarks i) as [lm|]; simpl is_undefined; cbv iota.
  - repeat (eapply draws_bind_silent; [apply draws_prop|]).
    apply draws_ret.
  - apply draws_ret.
Qed.

Lemma computePoints_draws landmarks indices style c :
  draws (computePoints sin landmarks indices style) c
        (pointsOf sin landmarks indices style (canvas_width c) (canvas_height c)) [].
Proof.
  unfold computePoints, pointsOf.
  eapply draws_bind_silent; [apply draws_width|].
  eapply draws_bind_silent; [apply draws_height|].
  cbv zeta. apply mapi_from_draws. intros a k. apply pointOf_draws.
Qed.

Lemma computePoints_run landmarks indices style c :
  computePoints sin landmarks indices style c
  = (Normal (pointsOf sin landmarks indices style (canvas_width c) (canvas_height c)), c).
Proof.
  pose proof (computePoints_draws landmarks indices style c) as H.
  unfold draws in H. now rewrite extend_nil in H.
Qed.

Lemma pointsOf_length landmarks indices style w h :
  length (pointsOf sin landmarks indices style w h) = length indices.
Proof. apply mapi_pure_length. Qed.

Lemma pointsOf_nth landmarks indices style w h idx i :
  nth_error indices idx = Some i ->
  nth_error (pointsOf sin landmarks indices style w h) idx
  = Some (pointVal sin landmarks indices style w h i idx).
Proof.
  intros Hi. unfold pointsOf. rewrite mapi_pure_nth, Hi. reflexivity.
Qed.

Lemma drawOneSide_draws landmarks indices style side c :
  indices <> [] ->
  draws (drawOneSide sin landmarks indices style side) c tt
        (strokeOps style (canvas_height c)
           (pointsOf sin landmarks indices style (canvas_width c) (canvas_height c))).
Proof.
  intros Hne. unfold drawOneSide, strokeOps.
  destruct indices as [|i0 indices]; [congruence|].
  cbn [length Nat.eqb]. cbv zeta.
  eapply draws_bind_silent; [apply draws_height|].
  eapply draws_bind_silent; [apply computePoints_draws|].
  repeat apply draws_bind_emit.
  eapply draws_bind; [apply smoothPath_draws|].
  repeat apply draws_bind_emit.
  eapply draws_bind; [apply smoothPath_draws|].
  repeat apply draws_bind_emit.
  eapply draws_bind; [apply smoothPath_draws|].
  apply draws_bind_emit. apply draws_emit.
Qed.

Lemma drawEyebrows_draws landmarks style c :
  draws (drawEyebrows sin landmarks style) c tt
        (strokeOps style (canvas_height c)
           (pointsOf sin landmarks LEFT_EYEBROW style (canvas_width c) (canvas_height c))
         ++ strokeOps style (canvas_height c)
              (pointsOf sin landmarks RIGHT_EYEBROW style (canvas_width c) (canvas_height c))).
Proof.
  unfold drawEyebrows.
  eapply draws_bind; [apply drawOneSide_draws; discriminate|].
  apply (drawOneSide_draws landmarks RIGHT_EYEBROW style R
           (extend c _)); discriminate.
Qed.

End StrokeFacts.

(** C9. Whatever the landmark set and the index list, the [points] array
    has one entry per index, in the order of the list; an index with no
    landmark gives the entry (0, 0) and none is dropped.  For the two
    eyebrow lists the array has 9 entries. *)
Theorem points_one_per_index (sin : float -> float) (landmarks : list Landmark)
    (style : EyebrowStyle) (c : Ctx) :
  (forall indices, exists pts,
      computePoints sin landmarks indices style c = (Normal pts, c)
      /\ length pts = length indices
      /\ (forall idx i, nth_error indices idx = Some i ->
                        at_index landmarks i = None ->
                        nth_error pts idx = Some (mkPoint 0 0)))
  /\ (exists pts, computePoints sin landmarks LEFT_EYEBROW style c = (Normal pts, c)
                  /\ length pts = 9%nat)
  /\ (exists pts, computePoints sin landmarks RIGHT_EYEBROW style c = (Normal pts, c)
                  /\ length pts = 9%nat).
Proof.
  repeat split.
  - intros indices. eexists. split; [apply computePoints_run|]. split.
    + apply pointsOf_length.
    + intros idx i Hi Hnone. rewrite (pointsOf_nth sin _ _ _ _ _ _ _ Hi).
      unfold pointVal. now rewrite Hnone.
  - eexists. split; [apply computePoints_run | apply pointsOf_length].
  - eexists. split; [apply computePoints_run | apply pointsOf_length].
Qed.

Lemma pointsOf_present (sin : float -> float) landmarks indices style w h idx i lm :
  nth_error indices idx = Some i ->
  at_index landmarks i = Some lm ->
  nth_error (pointsOf sin landmarks indices style w h) idx
  = Some (mkPoint (lm_x lm * w)
                  (lm_y lm * h + offsetY style * h + archAt sin indices style h idx)).
Proof.
  intros Hi Hlm. rewrite (pointsOf_nth sin _ _ _ _ _ _ _ Hi).
  unfold pointVal. now rewrite Hlm.
Qed.

(** C5. A landmark that an index list refers to and that the landmark set
    holds becomes the pixel position whose x is [point.x * width] and whose
    y is [point.y * height + style.offsetY * height], to which the arch
    displacement of its position is then added. *)
Theorem landmark_to_pixel (sin : float -> float) (landmarks : list Landmark)
    (indices : list nat) (style : EyebrowStyle) (c : Ctx)
    (idx i : nat) (lm : Landmark) :
  nth_error indices idx = Some i ->
  at_index landmarks i = Some lm ->
  exists pts p,
    computePoints sin landmarks indices style c = (Normal pts, c)
    /\ nth_error pts idx = Some p
    /\ px p = lm_x lm * canvas_width c
    /\ py p = (lm_y lm * canvas_height c + offsetY style * canvas_height c)
              + archAt sin indices style (canvas_height c) idx.
Proof.
  intros Hi Hlm. do 2 eexists.
  split; [apply computePoints_run|].
  split; [now apply pointsOf_present with (i := i) (lm := lm)|].
  split; reflexivity.
Qed.

Lemma landmark_to_pixel_witness :
  exists pts p,
    computePoints sin_poly sample_landmarks LEFT_EYEBROW arch_style hd_canvas
    = (Normal pts, hd_canvas)
    /\ nth_error pts 2 = Some p
    /\ px p = 0.5 * 1280
    /\ py p = (0.4 * 720 + (-0.01) * 720)
              + archAt sin_poly LEFT_EYEBROW arch_style 720 2.
Proof.
  exact (landmark_to_pixel sin_poly sample_landmarks LEFT_EYEBROW arch_style
           hd_canvas 2 55 (mkLandmark 0.5 0.4) eq_refl eq_refl).
Defined.

(** C4. In an index list of length L >= 2, the entry at position idx whose
    landmark is present has the arch displacement
    [-archStrength(style.id) * height * sin(pi * t)], with t = idx / (L - 1),
    added to its y coordinate (the product is taken from the left, as the
    source writes it).  The strength is read off the style identifier alone:
    0.0, 0.003, 0.0015, 0.007 and 0.011 for the five presets, the same
    whatever the style's own [offsetY]. *)
Theorem arch_displacement (sin : float -> float) (landmarks : list Landmark)
    (indices : list nat) (style : EyebrowStyle) (c : Ctx)
    (idx i : nat) (lm : Landmark) :
  (2 <= length indices)%nat ->
  nth_error indices idx = Some i ->
  at_index landmarks i = Some lm ->
  let h := canvas_height c in
  let t := num idx / (num (length indices) - 1) in
  (exists pts p,
     computePoints sin landmarks indices style c = (Normal pts, c)
     /\ nth_error pts idx = Some p
     /\ py p = (lm_y lm * h + offsetY style * h)
               + (- getArchStrength (id style)) * h * sin (PI * t))
  /\ getArchStrength "natural" = 0.0
  /\ getArchStrength "soft-flat" = 0.003
  /\ getArchStrength "flat" = 0.0015
  /\ getArchStrength "arch" = 0.007
  /\ getArchStrength "strong-arch" = 0.011
  /\ (forall o, getArchStrength
                  (id (mkStyle (id style) (name style) (color style) (thickness style) o))
                = getArchStrength (id style)).
Proof.
  intros HL Hi Hlm h t.
  split; [|repeat split].
  do 2 eexists.
  split; [apply computePoints_run|].
  split; [now apply pointsOf_present with (i := i) (lm := lm)|].
  cbn [py]. unfold archAt, archT.
  destruct (Nat.eqb_spec (length indices) 1) as [H1|_]; [lia | reflexivity].
Qed.

Lemma arch_displacement_witness :
  (exists pts p,
     computePoints sin_poly sample_landmarks LEFT_EYEBROW arch_style hd_canvas
     = (Normal pts, hd_canvas)
     /\ nth_error pts 2 = Some p
     /\ py p = (0.4 * 720 + (-0.01) * 720)
               + (- 0.007) * 720 * sin_poly (PI * (num 2 / (num 9 - 1))))
  /\ getArchStrength "natural" = 0.0.
Proof.
  pose proof (arch_displacement sin_poly sample_landmarks LEFT_EYEBROW arch_style
                hd_canvas 2 55 (mkLandmark 0.5 0.4)
                (le_S 2 8 (le_S 2 7 (le_S 2 6 (le_S 2 5 (le_S 2 4 (le_S 2 3
                   (le_S 2 2 (le_n 2))))))))
                eq_refl eq_refl) as H.
  cbv zeta in H. split; [exact (proj1 H) | exact (proj1 (proj2 H))].
Defined.

(** ** The calls of the filled-polygon renderer *)

Lemma plot_draws landmarks style i idx c :
  draws (FillVariant.plot landmarks style i idx) c tt
        (plotOps landmarks style (canvas_width c) (canvas_height c) i idx).
Proof.
  unfold FillVariant.plot, plotOps. cbv zeta.
  destruct (at_index landmarks i) as [lm|]; simpl is_undefined; cbv iota.
  - eapply draws_bind_silent; [apply draws_prop|].
    eapply draws_bind_silent; [apply draws_width|].
    eapply draws_bind_silent; [apply draws_prop|].
    eapply draws_bind_silent; [apply draws_height|].
    destruct (idx =? 0)%nat; apply draws_emit.
  - apply draws_ret.
Qed.

Lemma plotScaled_draws landmarks style scale i idx c :
  draws (FillVariant.plotScaled landmarks style scale i idx) c tt
        (plotScaledOps landmarks style scale (canvas_width c) (canvas_height c) i idx).
Proof.
  unfold FillVariant.plotScaled, plotScaledOps. cbv zeta.
  destruct (at_index landmarks i) as [lm|]; simpl is_undefined; cbv iota.
  - eapply draws_bind_silent; [apply draws_width|].
    eapply draws_bind_silent; [apply draws_height|].
    eapply draws_bind_silent; [apply draws_prop|].
    eapply draws_bind_silent; [apply draws_prop|].
    destruct (idx =? 0)%nat; apply draws_emit.
  - apply draws_ret.
Qed.

Lemma fill_drawOneSide_draws landmarks indices style c :
  indices <> [] ->
  draws (FillVariant.drawOneSide landmarks indices style) c tt
        (fillOps landmarks indices style (canvas_width c) (canvas_height c)).
Proof.
  intros Hne. unfold FillVariant.drawOneSide, fillOps, forEach.
  destruct indices as [|i0 indices]; [congruence|].
  cbn [length Nat.eqb].
  repeat apply draws_bind_emit.
  eapply draws_bind.
  { apply forEach_from_draws with (w := canvas_width c) (h := canvas_height c);
      [|reflexivity|reflexivity].
    intros a k c' Hw Hh. rewrite <- Hw, <- Hh. apply plot_draws. }
  repeat apply draws_bind_emit.
  eapply draws_bind; [|apply draws_emit].
  destruct (1 <? thickness style).
  - apply draws_bind_emit.
    eapply draws_bind.
    { apply forEach_from_draws with (w := canvas_width c) (h := canvas_height c);
        [|reflexivity|reflexivity].
      intros a k c' Hw Hh. rewrite <- Hw, <- Hh. apply plotScaled_draws. }
    apply draws_bind_emit. apply draws_emit.
  - apply draws_ret.
Qed.

Lemma fill_drawEyebrows_draws landmarks style c :
  draws (FillVariant.drawEyebrows landmarks style) c tt
        (fillOps landmarks LEFT_EYEBROW style (canvas_width c) (canvas_height c)
         ++ fillOps landmarks RIGHT_EYEBROW style (canvas_width c) (canvas_height c)).
Proof.
  unfold FillVariant.drawEyebrows.
  eapply draws_bind; [apply fill_drawOneSide_draws; discriminate|].
  apply (fill_drawOneSide_draws landmarks RIGHT_EYEBROW style (extend c _));
    discriminate.
Qed.

Lemma at_index_out_of_range {A} (arr : list A) i :
  (length arr <= i)%nat -> at_index arr i = None.
Proof. intros H. unfold at_index. now apply nth_error_None. Qed.

(** C6. With a landmark set that stops before index 383, the largest index
    of the two eyebrow lists, both renderers complete normally (no
    [TypeError] is raised by a missing landmark).  A lookup out of range is
    the point (0, 0) in the stroke renderer, which still builds one point per
    index, and makes no call in the fill renderer; a landmark that is present
    is drawn by its [moveTo] or [lineTo]. *)
Theorem short_landmark_set_never_throws (sin : float -> float)
    (landmarks : list Landmark) (style : EyebrowStyle) (c : Ctx) :
  (length landmarks <= 383)%nat ->
  (exists calls, drawEyebrows sin landmarks style c = (Normal tt, extend c calls))
  /\ (exists calls,
        FillVariant.drawEyebrows landmarks style c = (Normal tt, extend c calls))
  /\ at_index landmarks 383 = None
  /\ (forall indices idx i,
        nth_error indices idx = Some i -> (length landmarks <= i)%nat ->
        exists pts,
          computePoints sin landmarks indices style c = (Normal pts, c)
          /\ length pts = length indices
          /\ nth_error pts idx = Some (mkPoint 0 0))
  /\ (forall i idx scale,
        (length landmarks <= i)%nat ->
        FillVariant.plot landmarks style i idx c = (Normal tt, c)
        /\ FillVariant.plotScaled landmarks style scale i idx c = (Normal tt, c))
  /\ (forall i idx lm,
        at_index landmarks i = Some lm ->
        exists x y,
          FillVariant.plot landmarks style i idx c
          = (Normal tt, extend c [if (idx =? 0)%nat then MoveTo x y else LineTo x y])).
Proof.
  intros Hshort.
  split; [eexists; apply drawEyebrows_draws|].
  split; [eexists; apply fill_drawEyebrows_draws|].
  split; [now apply at_index_out_of_range|].
  split; [|split].
  - intros indices idx i Hi Hout. eexists.
    split; [apply computePoints_run|].
    split; [apply pointsOf_length|].
    rewrite (pointsOf_nth sin _ _ _ _ _ _ _ Hi). unfold pointVal.
    now rewrite (at_index_out_of_range landmarks i Hout).
  - intros i idx scale Hout.
    pose proof (plot_draws landmarks style i idx c) as H1.
    pose proof (plotScaled_draws landmarks style scale i idx c) as H2.
    unfold draws, plotOps, plotScaledOps in H1, H2.
    rewrite (at_index_out_of_range landmarks i Hout), extend_nil in H1, H2.
    now split.
  - intros i idx lm Hlm.
    pose proof (plot_draws landmarks style i idx c) as H1.
    unfold draws, plotOps in H1. rewrite Hlm in H1. cbv zeta in H1.
    do 2 eexists. exact H1.
Qed.

Lemma short_landmark_set_never_throws_witness :
  (exists calls,
      drawEyebrows sin_poly sample_landmarks arch_style hd_canvas
      = (Normal tt, extend hd_canvas calls))
  /\ (exists calls,
        FillVariant.drawEyebrows sample_landmarks arch_style hd_canvas
        = (Normal tt, extend hd_canvas calls))
  /\ at_index sample_landmarks 383 = None.
Proof.
  pose proof (short_landmark_set_never_throws sin_poly sample_landmarks arch_style
                hd_canvas (proj1 (Nat.leb_le 100 383) eq_refl)) as H.
  split; [exact (proj1 H)|].
  split; [exact (proj1 (proj2 H)) | exact (proj1 (proj2 (proj2 H)))].
Defined.

(** ** Style selection *)

(** C2. Whatever the selected identifier, the resolution is defined (the
    read of the resolved style raises nothing) and is an entry of the
    catalog: the entry with that identifier when the catalog has one, the
    first entry, "natural", when it has none. *)
Theorem resolveStyle_selected_or_first (selectedStyleId : string) :
  (exists s, resolveStyle styles selectedStyleId = Some s /\ In s styles)
  /\ (forall s, In s styles -> id s = selectedStyleId ->
                resolveStyle styles selectedStyleId = Some s)
  /\ ((forall s, In s styles -> id s <> selectedStyleId) ->
      resolveStyle styles selectedStyleId = at_index styles 0
      /\ resolveStyle styles selectedStyleId = Some natural_style)
  /\ (forall (p : Page), exists s,
        prop (fun s => s) (resolveStyle styles selectedStyleId) p = (Normal s, p)).
Proof.
  assert (Hdef : exists s, resolveStyle styles selectedStyleId = Some s /\ In s styles).
  { unfold resolveStyle.
    destruct (find _ styles) as [s|] eqn:Hfind.
    - exists s. split; [reflexivity|]. now apply find_some in Hfind.
    - exists natural_style. split; [reflexivity | now left]. }
  split; [exact Hdef|].
  split; [|split].
  - intros s Hin Hid. subst selectedStyleId.
    cbn [In styles] in Hin.
    destruct Hin as [<-|[<-|[<-|[<-|[<-|[]]]]]]; reflexivity.
  - intros Hnone. unfold resolveStyle.
    destruct (find _ styles) as [s|] eqn:Hfind.
    + apply find_some in Hfind. destruct Hfind as [Hin Heq].
      apply String.eqb_eq in Heq. now destruct (Hnone s Hin).
    + split; reflexivity.
  - intros p. destruct Hdef as (s & Hs & _). exists s. now rewrite Hs.
Qed.

Lemma resolveStyle_selected_or_first_witness :
  resolveStyle styles "arch" = Some arch_style
  /\ resolveStyle styles "feathered" = Some natural_style.
Proof.
  pose proof (resolveStyle_selected_or_first "arch") as Ha.
  pose proof (resolveStyle_selected_or_first "feathered") as Hf.
  split.
  - apply (proj1 (proj2 Ha) arch_style); [do 3 right; now left | reflexivity].
  - apply (proj1 (proj2 (proj2 Hf))).
    intros s Hin. cbn [In styles] in Hin.
    destruct Hin as [<-|[<-|[<-|[<-|[<-|[]]]]]]; discriminate.
Defined.

(** ** The capture store *)

(** C7, the case that fails.  Two triggers within one millisecond: the store
    holds the two records, the newer first, and their creation timestamps
    are equal, not increasing. *)
Lemma two_captures_same_millisecond :
  exists newer older,
    handleCapture (Some "data:2") 1000 (handleCapture (Some "data:1") 1000 [])
    = [newer; older]
    /\ (createdAt older <? createdAt newer) = false.
Proof. do 2 eexists. split; reflexivity. Qed.

(** C7, as the code has it.  Two triggers on the empty store, with the
    canvas mounted, leave exactly two records, the second trigger's before
    the first's, each with the data URL and the clock reading of its own
    trigger.  The record holds whatever [Date.now()] returned: the older
    timestamp is strictly below the newer one exactly when the clock
    advanced between the two triggers. *)
Theorem two_captures_newest_first (url1 url2 : string) (t1 t2 : float) :
  let store := handleCapture (Some url2) t2 (handleCapture (Some url1) t1 []) in
  store = [mkCapture url2 t2; mkCapture url1 t1]
  /\ length store = 2%nat
  /\ map createdAt store = [t2; t1]
  /\ (forall older newer, store = [newer; older] ->
        (createdAt older <? createdAt newer) = (t1 <? t2)).
Proof.
  cbv zeta. repeat split.
  intros older newer H. unfold handleCapture in H.
  injection H as <- <-. reflexivity.
Qed.

(** ** Facts on binary64 arithmetic *)

Lemma zero_pos : zero 0.
Proof. now exists false. Qed.

Lemma zero_neg : zero (- 0).
Proof. now exists true. Qed.

Lemma finite_cases x :
  finite x = true ->
  zero x \/ exists s m e, Prim2SF x = S754_finite s m e.
Proof.
  unfold finite, zero. rewrite ltb_spec, abs_spec.
  destruct (Prim2SF x) as [s|s| |s m e]; simpl; intros H.
  - left. now exists s.
  - discriminate.
  - discriminate.
  - right. now exists s, m, e.
Qed.

(** A zero times a finite number is a zero. *)
Lemma zero_mul z x : zero z -> finite x = true -> zero (z * x).
Proof.
  intros [sz Hz] Hx. unfold zero. rewrite mul_spec, Hz.
  destruct (finite_cases x Hx) as [[s ->]|(s & m & e & ->)];
    eexists; reflexivity.
Qed.

(** Adding a zero to a positive number changes nothing. *)
Lemma add_zero x z : (0 <? x) = true -> zero z -> x + z = x.
Proof.
  intros Hx [sz Hz]. apply Prim2SF_inj. rewrite add_spec, Hz.
  rewrite ltb_spec in Hx. change (Prim2SF 0) with (S754_zero false) in Hx.
  destruct (Prim2SF x) as [s|s| |s m e]; try discriminate; reflexivity.
Qed.

(** ** A level brow under the "natural" style *)

Lemma pointAt_Forall (P : Point -> Prop) pts i :
  Forall P pts -> (i < length pts)%nat -> P (pointAt pts i).
Proof.
  intros HF Hi. unfold pointAt.
  rewrite Forall_forall in HF. apply HF. now apply nth_In.
Qed.

Lemma smoothOps_on_row r pts :
  Forall (fun p => py p = r) pts -> (r + r) / 2 = r ->
  Forall (on_row r) (smoothOps pts).
Proof.
  intros Hpts Hmid. unfold smoothOps.
  destruct (Nat.ltb_spec (length pts) 2) as [_|Hlen]; [constructor|].
  constructor; [exact I|].
  constructor; [apply (pointAt_Forall _ pts 0 Hpts); lia|].
  apply Forall_app. split.
  - rewrite Forall_map, Forall_forall. intros i Hi. apply in_seq in Hi.
    unfold on_row, curveTo, midpoint. cbn [px py].
    rewrite (pointAt_Forall _ pts i Hpts), (pointAt_Forall _ pts (i + 1) Hpts) by lia.
    now split.
  - constructor; [|constructor].
    apply (pointAt_Forall _ pts (length pts - 1) Hpts). lia.
Qed.

(** The point of a landmark at height 0.4 under the "natural" style. *)
Lemma pointVal_natural (sin : float -> float) landmarks indices w h i idx lm :
  at_index landmarks i = Some lm -> lm_y lm = 0.4 ->
  finite h = true -> (0 <? 0.4 * h) = true ->
  finite (sin (PI * archT indices idx)) = true ->
  pointVal sin landmarks indices natural_style w h i idx
  = mkPoint (lm_x lm * w) (0.4 * h).
Proof.
  intros Hlm Hy Hh Hr Hsin. unfold pointVal. rewrite Hlm, Hy. f_equal.
  unfold archAt. cbn [offsetY id natural_style].
  change (getArchStrength "natural") with 0.
  rewrite (add_zero (0.4 * h) (0 * h)) by (assumption || now apply zero_mul, Hh; apply zero_pos).
  apply add_zero; [assumption|].
  apply zero_mul; [|assumption].
  apply zero_mul; [apply zero_neg | assumption].
Qed.

(** C8. Every left-eyebrow landmark at y = 0.4, the "natural" style, a
    finite canvas height h whose row r = 0.4 * h is positive, and an engine
    sine that is finite at the nine positions: each of the nine points has
    y = r exactly (offset and arch displacement both vanish), and the main
    stroke (the first path of [drawOneSide], ten calls closed by [stroke])
    has all its vertical coordinates on r, the curve ends being (r + r) / 2,
    which is r as long as doubling r does not overflow. *)
Theorem natural_style_level_brow (sin : float -> float)
    (landmarks : list Landmark) (c : Ctx) :
  let h := canvas_height c in
  let r := 0.4 * h in
  (forall i, In i LEFT_EYEBROW ->
             exists lm, at_index landmarks i = Some lm /\ lm_y lm = 0.4) ->
  finite h = true ->
  (0 <? r) = true ->
  (forall idx, (idx < 9)%nat -> finite (sin (PI * (num idx / (num 9 - 1)))) = true) ->
  (r + r) / 2 = r ->
  exists pts path rest,
    computePoints sin landmarks LEFT_EYEBROW natural_style c = (Normal pts, c)
    /\ length pts = 9%nat
    /\ Forall (fun p => py p = r) pts
    /\ drawOneSide sin landmarks LEFT_EYEBROW natural_style L c
       = (Normal tt,
          extend c ([Save; SetFilter "blur(0.6px)";
                     SetStrokeStyle "rgba(60, 40, 30, 0.75)";
                     SetLineWidth (h * 0.012 * 1.0);
                     SetLineCap "round"; SetLineJoin "round"]
                    ++ path ++ Stroke :: rest))
    /\ length path = 10%nat
    /\ nth_error path 0 = Some BeginPath
    /\ Forall (on_row r) path.
Proof.
  intros h r Hlms Hh Hr Hsin Hmid.
  set (pts := pointsOf sin landmarks LEFT_EYEBROW natural_style (canvas_width c) h).
  assert (Hrow : Forall (fun p => py p = r) pts).
  { apply mapi_pure_Forall. intros idx i Hi.
    destruct (Hlms i (nth_error_In _ _ Hi)) as (lm & Hlm & Hy).
    assert (Hidx : (idx < 9)%nat)
      by (apply (proj1 (nth_error_Some LEFT_EYEBROW idx)); congruence).
    rewrite (pointVal_natural sin landmarks LEFT_EYEBROW (canvas_width c) h i
               (0 + idx) lm Hlm Hy Hh Hr); [reflexivity|].
    apply (Hsin idx Hidx). }
  assert (Hlen : length pts = 9%nat) by apply pointsOf_length.
  exists pts, (smoothOps pts). eexists.
  split; [apply computePoints_run|].
  split; [exact Hlen|].
  split; [exact Hrow|].
  split; [|split; [|split]].
  - pose proof (drawOneSide_draws sin landmarks LEFT_EYEBROW natural_style L c) as Hd.
    unfold draws, strokeOps in Hd. cbv zeta in Hd.
    rewrite Hd by discriminate. reflexivity.
  - unfold smoothOps. rewrite Hlen. cbn [Nat.ltb Nat.leb Nat.sub].
    cbn [length]. rewrite length_app, length_map, length_seq. reflexivity.
  - unfold smoothOps. rewrite Hlen. reflexivity.
  - now apply smoothOps_on_row.
Qed.

Lemma natural_style_level_brow_witness :
  exists pts path rest,
    computePoints sin_poly level_landmarks LEFT_EYEBROW natural_style hd_canvas
    = (Normal pts, hd_canvas)
    /\ length pts = 9%nat
    /\ Forall (fun p => py p = 0.4 * 720) pts
    /\ drawOneSide sin_poly level_landmarks LEFT_EYEBROW natural_style L hd_canvas
       = (Normal tt,
          extend hd_canvas ([Save; SetFilter "blur(0.6px)";
                             SetStrokeStyle "rgba(60, 40, 30, 0.75)";
                             SetLineWidth (720 * 0.012 * 1.0);
                             SetLineCap "round"; SetLineJoin "round"]
                            ++ path ++ Stroke :: rest))
    /\ length path = 10%nat
    /\ nth_error path 0 = Some BeginPath
    /\ Forall (on_row (0.4 * 720)) path.
Proof.
  apply (natural_style_level_brow sin_poly level_landmarks hd_canvas).
  - intros i Hi. exists (mkLandmark 0.5 0.4). cbn [In LEFT_EYEBROW] in Hi.
    destruct Hi as [<-|[<-|[<-|[<-|[<-|[<-|[<-|[<-|[<-|[]]]]]]]]]];
      split; reflexivity.
  - reflexivity.
  - reflexivity.
  - intros idx Hidx.
    do 9 (destruct idx as [|idx]; [reflexivity|]).
    exfalso. do 9 apply le_S_n in Hidx. inversion Hidx.
  - reflexivity.
Defined.

(** ** Order on binary64 numbers *)

Ltac compare_cases :=
  repeat match goal with
  | |- context [(?a ?= ?b)%Z] => destruct (Z.compare_spec a b)
  | |- context [(?a ?= ?b)%positive] => destruct (Pos.compare_spec a b)
  | H : context [(?a ?= ?b)%Z] |- _ => destruct (Z.compare_spec a b)
  | H : context [(?a ?= ?b)%positive] |- _ => destruct (Pos.compare_spec a b)
  end.

Ltac by_compare :=
  change PosDef.Pos.compare_cont with Pos.compare_cont;
  change (Pos.compare_cont Eq) with Pos.compare;
  change IntDef.Z.compare with Z.compare;
  intros; compare_cases; subst; simpl in *;
  try discriminate; try reflexivity; try lia.

Lemma SFleb_trans a b c : SFleb a b = true -> SFleb b c = true -> SFleb a c = true.
Proof.
  unfold SFleb, SFcompare.
  destruct a as [[]|[]| |[] ma ea], b as [[]|[]| |[] mb eb], c as [[]|[]| |[] mc ec];
    try discriminate; try reflexivity; by_compare.
Qed.

Lemma SFleb_ltb_trans a b c : SFleb a b = true -> SFltb b c = true -> SFltb a c = true.
Proof.
  unfold SFleb, SFltb, SFcompare.
  destruct a as [[]|[]| |[] ma ea], b as [[]|[]| |[] mb eb], c as [[]|[]| |[] mc ec];
    try discriminate; try reflexivity; by_compare.
Qed.

Lemma SFleb_refl_l b c : SFleb b c = true -> SFleb b b = true.
Proof.
  unfold SFleb, SFcompare.
  destruct b as [[]|[]| |[] mb eb]; try discriminate; try reflexivity;
    intros _; by_compare.
Qed.

Lemma leb_trans a b c : (a <=? b) = true -> (b <=? c) = true -> (a <=? c) = true.
Proof. rewrite !leb_spec. apply SFleb_trans. Qed.

Lemma leb_ltb_trans a b c : (a <=? b) = true -> (b <? c) = true -> (a <? c) = true.
Proof. rewrite leb_spec, !ltb_spec. apply SFleb_ltb_trans. Qed.

Lemma leb_refl_l b c : (b <=? c) = true -> (b <=? b) = true.
Proof. rewrite !leb_spec. apply SFleb_refl_l. Qed.

Lemma leb_neq_ltb a b : (a <=? b) = true -> (a =? b) = false -> (a <? b) = true.
Proof.
  rewrite leb_spec, eqb_spec, ltb_spec. unfold SFleb, SFeqb, SFltb.
  destruct (SFcompare (Prim2SF a) (Prim2SF b)) as [[]|]; congruence.
Qed.

Lemma ltb_leb a b : (a <? b) = true -> (a <=? b) = true.
Proof.
  rewrite leb_spec, ltb_spec. unfold SFleb, SFltb.
  destruct (SFcompare (Prim2SF a) (Prim2SF b)) as [[]|]; congruence.
Qed.

Lemma ltb_neq a b : (a <? b) = true -> (a =? b) = false.
Proof.
  rewrite eqb_spec, ltb_spec. unfold SFeqb, SFltb.
  destruct (SFcompare (Prim2SF a) (Prim2SF b)) as [[]|]; congruence.
Qed.

(** ** The frame loop *)

Lemma keeps_ret {A} (a : A) : keeps (ret a).
Proof. intros p; reflexivity. Qed.

Lemma keeps_prop {A B} (f : A -> B) v : keeps (prop f v).
Proof. intros p; destruct v; reflexivity. Qed.

Lemma keeps_onCanvas {A} (d : Draw A) : keeps (onCanvas d).
Proof. intros p. unfold onCanvas. destruct (d (ctx p)); reflexivity. Qed.

Lemma keeps_bind {A B} (m : Eff Page A) (k : A -> Eff Page B) :
  keeps m -> (forall a, keeps (k a)) -> keeps (bind m k).
Proof.
  intros Hm Hk p. unfold bind. specialize (Hm p).
  destruct (m p) as [[a|e] p']; simpl in *; [now rewrite Hk | assumption].
Qed.

Lemma passes_ret {A} (a : A) : passes (ret a).
Proof. intros p. now exists a, p. Qed.

Lemma passes_onCanvas_width : passes (onCanvas width).
Proof. intros p. do 2 eexists. split; reflexivity. Qed.

Lemma passes_onCanvas_height : passes (onCanvas height).
Proof. intros p. do 2 eexists. split; reflexivity. Qed.

Lemma passes_onCanvas_resize vw vh : passes (onCanvas (resize vw vh)).
Proof. intros p. do 2 eexists. split; reflexivity. Qed.

Lemma passes_onCanvas_emit op : passes (onCanvas (emit op)).
Proof. intros p. do 2 eexists. split; reflexivity. Qed.

Lemma timing_bind_passes {A B} (m : Eff Page A) (k : A -> Eff Page B) p R :
  passes m ->
  (forall a p', timing p' = timing p -> timing (snd (k a p')) = R) ->
  timing (snd (bind m k p)) = R.
Proof.
  intros Hm Hk. destruct (Hm p) as (a & p' & Hrun & Ht).
  unfold bind. rewrite Hrun. now apply Hk.
Qed.

Lemma timing_inv p p' :
  timing p' = timing p ->
  lastVideoTime p' = lastVideoTime p /\ detectCalls p' = detectCalls p.
Proof. unfold timing. intros H. now injection H. Qed.

Lemma render_timing sin f p :
  timing (snd (render sin f p))
  = if reachesInference f && negb (lastVideoTime p =? now f)
    then (now f, detectCalls p ++ [now f])
    else timing p.
Proof.
  unfold render, reachesInference.
  unfold bind at 1. cbn [requestAnimationFrame fst snd].
  destruct (readyState f <? 2)%nat; [reflexivity|].
  cbv zeta.
  destruct (falsy (videoWidth f) || falsy (videoHeight f)); [reflexivity|].
  cbn [negb andb].
  set (p0 := mkPage (ctx p) (lastVideoTime p) (detectCalls p) (S (requested p))).
  assert (H0 : timing p0 = timing p) by reflexivity.
  clearbody p0.
  apply timing_bind_passes; [apply passes_onCanvas_width|]. intros w p1 H1.
  apply timing_bind_passes; [apply passes_onCanvas_height|]. intros h p2 H2.
  apply timing_bind_passes.
  { destruct (negb (w =? videoWidth f) || negb (h =? videoHeight f));
      [apply passes_onCanvas_resize | apply passes_ret]. }
  intros _ p3 H3.
  apply timing_bind_passes; [apply passes_onCanvas_emit|]. intros _ p4 H4.
  assert (H : timing p4 = timing p) by congruence.
  clear H0 H1 H2 H3 H4 p0 p1 p2 p3. apply timing_inv in H. destruct H as [Hlast Hlog].
  destruct (landmarkerRef f), (landmarkerReady f); cbn [negb orb andb];
    try (unfold ret, timing; cbn [snd]; congruence).
  unfold bind at 1. cbn [getLastVideoTime]. rewrite Hlast.
  destruct (lastVideoTime p =? now f); cbn [negb];
    [unfold ret, timing; cbn [snd]; congruence|].
  unfold bind at 1. cbn [setLastVideoTime].
  unfold bind at 1. cbn [detectForVideo].
  match goal with
  | |- timing (snd (?m ?q)) = _ =>
      assert (Hk : keeps m); [|rewrite Hk; unfold timing; cbn; now rewrite Hlog]
  end.
  destruct (faceLandmarks f) as [faces|]; cbn [is_undefined orb];
    [|apply keeps_ret].
  destruct (length faces =? 0)%nat; [apply keeps_ret|].
  apply keeps_bind; [apply keeps_prop|]. intros fs.
  apply keeps_bind; [apply keeps_prop|]. intros lms.
  apply keeps_bind; [apply keeps_prop|]. intros st.
  apply keeps_onCanvas.
Qed.

Lemma render_lastVideoTime sin f p :
  lastVideoTime (snd (render sin f p))
  = if reachesInference f && negb (lastVideoTime p =? now f)
    then now f else lastVideoTime p.
Proof.
  pose proof (render_timing sin f p) as H. unfold timing in H.
  destruct (reachesInference f && negb (lastVideoTime p =? now f));
    now injection H.
Qed.

Lemma render_detectCalls sin f p :
  detectCalls (snd (render sin f p))
  = if reachesInference f && negb (lastVideoTime p =? now f)
    then detectCalls p ++ [now f] else detectCalls p.
Proof.
  pose proof (render_timing sin f p) as H. unfold timing in H.
  destruct (reachesInference f && negb (lastVideoTime p =? now f));
    now injection H.
Qed.

Lemma increasing_snoc ts x :
  increasing ts -> Forall (fun a => (a <? x) = true) ts -> increasing (ts ++ [x]).
Proof.
  induction ts as [|a ts IH]; simpl; intros Hinc Hall.
  - split; constructor.
  - destruct Hinc as [Ha Hinc]. inversion Hall as [|? ? Hax Hall']; subst.
    split; [|now apply IH].
    apply Forall_app. split; [assumption | now constructor].
Qed.

Lemma increasing_distinct ts : increasing ts -> pairwise_distinct ts.
Proof.
  induction ts as [|x ts IH]; intros Hinc i j a b Hij Hi Hj.
  - destruct i; discriminate.
  - destruct Hinc as [Hx Hinc]. destruct j as [|j]; [lia|].
    destruct i as [|i]; simpl in Hi, Hj.
    + injection Hi as <-. apply ltb_neq.
      rewrite Forall_forall in Hx. apply Hx. now apply nth_error_In with j.
    + apply (IH Hinc i j); [lia | assumption | assumption].
Qed.

Lemma in_step_render sin f fs p :
  nondecreasing (map now (f :: fs)) -> in_step p (f :: fs) ->
  in_step (snd (render sin f p)) fs.
Proof.
  intros Hmono [Hinc Hb]. unfold in_step.
  rewrite render_detectCalls, render_lastVideoTime.
  destruct (reachesInference f && negb (lastVideoTime p =? now f)) eqn:Hc.
  - apply andb_prop in Hc. destruct Hc as [_ Hneq].
    apply negb_true_iff in Hneq.
    assert (Hbelow : Forall (fun t => (t <? now f) = true) (detectCalls p)).
    { destruct Hb as [->|[Hall Hle]]; [constructor|].
      apply leb_neq_ltb in Hle; [|assumption].
      eapply Forall_impl; [|exact Hall]. intros t Ht. cbv beta in Ht.
      now apply leb_ltb_trans with (lastVideoTime p). }
    split; [now apply increasing_snoc|].
    destruct fs as [|g fs]; [exact I|]. right.
    destruct Hmono as [Hfg _].
    split; [|assumption].
    apply Forall_app. split.
    + eapply Forall_impl; [|exact Hbelow]. intros t Ht. now apply ltb_leb.
    + constructor; [|constructor]. now apply leb_refl_l with (now g).
  - split; [assumption|].
    destruct fs as [|g fs]; [exact I|].
    destruct Hb as [Hnil|[Hall Hle]]; [now left | right].
    destruct Hmono as [Hfg _].
    split; [assumption | now apply leb_trans with (now f)].
Qed.

Lemma run_increasing sin fs :
  forall p, nondecreasing (map now fs) -> in_step p fs ->
            increasing (detectCalls (run sin fs p)).
Proof.
  induction fs as [|f fs IH]; intros p Hmono Hstep.
  - exact (proj1 Hstep).
  - cbn [run]. apply IH.
    + destruct fs; [exact I | exact (proj2 Hmono)].
    + now apply in_step_render.
Qed.

(** C1. An iteration whose clock reading equals the last processed
    timestamp leaves the recorded inference calls as they were.  Over any
    run of the loop whose clock readings never go back (the clock is
    [performance.now()], which is monotonic), started with no call
    recorded, no two inference calls carry the same timestamp.  Four
    iterations that all reach the inference step with the readings
    T, T, T, T + 1, where T is a number, T + 1 differs from it and the last
    processed timestamp is not T, make exactly two calls, with T and with
    T + 1. *)
Theorem detect_once_per_timestamp (sin : float -> float) :
  (forall f p, (lastVideoTime p =? now f) = true ->
               detectCalls (snd (render sin f p)) = detectCalls p)
  /\ (forall frames p,
        nondecreasing (map now frames) -> detectCalls p = [] ->
        pairwise_distinct (detectCalls (run sin frames p)))
  /\ (forall T f1 f2 f3 f4 p,
        reachesInference f1 = true -> reachesInference f2 = true ->
        reachesInference f3 = true -> reachesInference f4 = true ->
        now f1 = T -> now f2 = T -> now f3 = T -> now f4 = T + 1 ->
        (T =? T) = true -> (T =? T + 1) = false ->
        (lastVideoTime p =? T) = false ->
        detectCalls (run sin [f1; f2; f3; f4] p) = detectCalls p ++ [T; T + 1]).
Proof.
  split; [|split].
  - intros f p Hsame. rewrite render_detectCalls, Hsame.
    now rewrite andb_false_r.
  - intros frames p Hmono Hlog. apply increasing_distinct.
    apply run_increasing; [assumption|].
    split; [now rewrite Hlog|].
    destruct frames; [exact I | now left].
  - intros T f1 f2 f3 f4 p R1 R2 R3 R4 N1 N2 N3 N4 HT HT1 Hlast.
    cbn [run].
    set (p1 := snd (render sin f1 p)).
    assert (L1 : lastVideoTime p1 = T /\ detectCalls p1 = detectCalls p ++ [T]).
    { unfold p1. rewrite render_lastVideoTime, render_detectCalls, R1, N1, Hlast.
      now split. }
    destruct L1 as [L1 D1]. clearbody p1.
    set (p2 := snd (render sin f2 p1)).
    assert (L2 : lastVideoTime p2 = T /\ detectCalls p2 = detectCalls p ++ [T]).
    { unfold p2. rewrite render_lastVideoTime, render_detectCalls, R2, N2, L1, HT.
      now split. }
    destruct L2 as [L2 D2]. clearbody p2.
    set (p3 := snd (render sin f3 p2)).
    assert (L3 : lastVideoTime p3 = T /\ detectCalls p3 = detectCalls p ++ [T]).
    { unfold p3. rewrite render_lastVideoTime, render_detectCalls, R3, N3, L2, HT.
      now split. }
    destruct L3 as [L3 D3]. clearbody p3.
    rewrite render_detectCalls, R4, N4, L3, HT1, D3.
    cbn [negb andb]. now rewrite <- app_assoc.
Qed.

Lemma detect_once_per_timestamp_witness :
  detectCalls (run sin_poly [frame_at 1000; frame_at 1000; frame_at 1000; frame_at 1001]
                   initialPage)
  = [1000; 1001]
  /\ pairwise_distinct
       (detectCalls (run sin_poly [frame_at 16; frame_at 16; frame_at 33; frame_at 50]
                         initialPage)).
Proof.
  pose proof (detect_once_per_timestamp sin_poly) as (_ & Hdistinct & Hfour).
  split.
  - exact (Hfour 1000 (frame_at 1000) (frame_at 1000) (frame_at 1000) (frame_at 1001)
             initialPage eq_refl eq_refl eq_refl eq_refl eq_refl eq_refl eq_refl eq_refl
             eq_refl eq_refl eq_refl).
  - apply Hdistinct; [|reflexivity].
    cbn [map nondecreasing now frame_at]. repeat split.
Defined.

(** ** One iteration of the loop in closed form *)

Lemma resolveStyle_defined sid : resolveStyle styles sid = Some (selectedStyle sid).
Proof.
  unfold selectedStyle, resolveStyle.
  destruct (find _ styles); reflexivity.
Qed.

Lemma onCanvas_draws {A} (d : Draw A) p a l :
  draws d (ctx p) a l ->
  onCanvas d p = (Normal a, mkPage (extend (ctx p) l) (lastVideoTime p) (detectCalls p) (requested p)).
Proof. unfold draws, onCanvas. intros ->. reflexivity. Qed.

Lemma render_run sin f p : render sin f p = (Normal tt, renderPage sin f p).
Proof.
  unfold render, renderPage, videoReady, overlayOps, detects, reachesInference.
  unfold bind at 1. cbn [requestAnimationFrame].
  destruct (readyState f <? 2)%nat; [reflexivity|].
  cbv zeta.
  destruct (falsy (videoWidth f) || falsy (videoHeight f)); [reflexivity|].
  cbn [negb andb].
  unfold bind at 1. cbn [onCanvas width ctx lastVideoTime detectCalls requested].
  unfold bind at 1. cbn [onCanvas height ctx lastVideoTime detectCalls requested].
  unfold sized.
  set (c := if negb (canvas_width (ctx p) =? videoWidth f)
               || negb (canvas_height (ctx p) =? videoHeight f)
            then mkCtx (videoWidth f) (videoHeight f) (ops (ctx p)) else ctx p).
  unfold bind at 1.
  assert (Hsz : (if negb (canvas_width (ctx p) =? videoWidth f)
               || negb (canvas_height (ctx p) =? videoHeight f)
                 then onCanvas (resize (videoWidth f) (videoHeight f)) else ret tt)
                (mkPage (ctx p) (lastVideoTime p) (detectCalls p) (S (requested p)))
                = (Normal tt, mkPage c (lastVideoTime p) (detectCalls p) (S (requested p)))).
  { unfold c. destruct (negb _ || negb _); reflexivity. }
  rewrite Hsz. clear Hsz.
  unfold bind at 1. cbn [onCanvas emit ctx lastVideoTime detectCalls requested].
  fold (extend c [DrawImage (videoWidth f) (videoHeight f)]).
  destruct (landmarkerRef f), (landmarkerReady f); cbn [negb orb andb];
    try reflexivity.
  unfold bind at 1. cbn [getLastVideoTime lastVideoTime].
  destruct (lastVideoTime p =? now f); cbn [negb]; [reflexivity|].
  unfold bind at 1. cbn [setLastVideoTime ctx lastVideoTime detectCalls requested].
  unfold bind at 1. cbn [detectForVideo ctx lastVideoTime detectCalls requested].
  destruct (faceLandmarks f) as [[|landmarks rest]|]; cbn [is_undefined orb length Nat.eqb];
    try reflexivity.
  unfold bind at 1. cbn [prop ret].
  unfold bind at 1. cbn [at_index nth_error prop ret].
  unfold bind at 1. rewrite resolveStyle_defined. cbn [prop ret].
  rewrite (onCanvas_draws _ _ _ _ (drawEyebrows_draws sin landmarks
             (selectedStyle (selectedStyleId f)) _)).
  cbn [ctx lastVideoTime detectCalls requested].
  rewrite extend_extend. reflexivity.
Qed.

Lemma run_cons sin f fs p : run sin (f :: fs) p = run sin fs (renderPage sin f p).
Proof. cbn [run]. now rewrite render_run. Qed.

(** X1. Every iteration completes normally, whatever the frame and the
    page (no [TypeError] escapes into the promise), and has requested the
    next animation frame exactly once. *)
Theorem render_completes_and_reschedules (sin : float -> float) (f : Frame) (p : Page) :
  exists p', render sin f p = (Normal tt, p')
             /\ requested p' = S (requested p).
Proof.
  exists (renderPage sin f p). split; [apply render_run|].
  unfold renderPage. destruct (videoReady f); reflexivity.
Qed.

(** X2. The loop requests one animation frame per iteration, also for the
    iterations that return early: after n iterations n more frames have
    been requested. *)
Theorem run_requests_one_frame_each (sin : float -> float) (frames : list Frame) :
  forall p, requested (run sin frames p) = (requested p + length frames)%nat.
Proof.
  induction frames as [|f fs IH]; intros p.
  - cbn. lia.
  - rewrite run_cons, IH. cbn [length].
    unfold renderPage. destruct (videoReady f); cbn [requested]; lia.
Qed.

(** X3. While the video has no data yet ([readyState] below 2) or no size
    (a zero or NaN width or height), an iteration only reschedules itself:
    the canvas, its calls, the last processed timestamp and the inference
    calls stay as they were. *)
Theorem render_skips_unready_video (sin : float -> float) (f : Frame) (p : Page) :
  videoReady f = false ->
  render sin f p
  = (Normal tt, mkPage (ctx p) (lastVideoTime p) (detectCalls p) (S (requested p))).
Proof.
  intros H. rewrite render_run. unfold renderPage. now rewrite H.
Qed.

Lemma render_skips_unready_video_witness :
  render sin_poly loading_frame initialPage
  = (Normal tt, mkPage (mkCtx 300 150 []) (-1) [] 1).
Proof.
  exact (render_skips_unready_video sin_poly loading_frame initialPage eq_refl).
Defined.

Lemma truthy_eqb_refl v : falsy v = false -> (v =? v) = true.
Proof.
  unfold falsy. intros H. apply orb_false_elim in H. destruct H as [_ H].
  now apply negb_false_iff in H.
Qed.

(** X4. After an iteration that found the video ready, the canvas has the
    size of the video, and the first thing added to the canvas is the raw
    frame, drawn at that size; whatever else the iteration draws comes after
    it. *)
Theorem render_fits_canvas_to_video (sin : float -> float) (f : Frame) (p : Page) :
  videoReady f = true ->
  let c' := ctx (snd (render sin f p)) in
  (canvas_width c' =? videoWidth f) = true
  /\ (canvas_height c' =? videoHeight f) = true
  /\ exists overlay,
       ops c' = ops (ctx p) ++ DrawImage (videoWidth f) (videoHeight f) :: overlay.
Proof.
  intros H. rewrite render_run. unfold renderPage. rewrite H. cbn [snd ctx].
  cbv zeta. rewrite canvas_width_extend, canvas_height_extend, ops_extend.
  unfold videoReady in H. apply andb_prop in H. destruct H as [_ H].
  apply negb_true_iff, orb_false_elim in H. destruct H as [Hw Hh].
  apply truthy_eqb_refl in Hw. apply truthy_eqb_refl in Hh.
  unfold sized.
  destruct (canvas_width (ctx p) =? videoWidth f) eqn:Ew;
    destruct (canvas_height (ctx p) =? videoHeight f) eqn:Eh;
    cbn [negb orb canvas_width canvas_height ops];
    (split; [assumption | split; [assumption | eexists; reflexivity]]).
Qed.

Lemma render_fits_canvas_to_video_witness :
  let c' := ctx (snd (render sin_poly (frame_at 16) initialPage)) in
  (canvas_width c' =? 640) = true
  /\ (canvas_height c' =? 480) = true
  /\ exists overlay, ops c' = [] ++ DrawImage 640 480 :: overlay.
Proof.
  exact (render_fits_canvas_to_video sin_poly (frame_at 16) initialPage eq_refl).
Defined.

(** X5. With the video ready, an iteration adds the raw frame and nothing
    else whenever the landmarker is missing or not ready, the clock reading
    equals the last processed timestamp, or the result has no face (no
    [faceLandmarks], or an empty one). *)
Theorem render_raw_video_only (sin : float -> float) (f : Frame) (p : Page) :
  videoReady f = true ->
  landmarkerRef f = false \/ landmarkerReady f = false
  \/ (lastVideoTime p =? now f) = true
  \/ faceLandmarks f = None \/ faceLandmarks f = Some [] ->
  ops (ctx (snd (render sin f p)))
  = ops (ctx p) ++ [DrawImage (videoWidth f) (videoHeight f)].
Proof.
  intros Hv Hno. rewrite render_run. unfold renderPage. rewrite Hv.
  cbn [snd ctx]. cbv zeta. rewrite ops_extend.
  assert (Hops : ops (sized f (ctx p)) = ops (ctx p)).
  { unfold sized. destruct (negb _ || negb _); reflexivity. }
  rewrite Hops. do 2 f_equal.
  unfold overlayOps, detects, reachesInference.
  destruct Hno as [H|[H|[H|[H|H]]]]; rewrite H;
    rewrite ?andb_false_r; try reflexivity.
  - destruct (_ && _); reflexivity.
  - destruct (_ && _); reflexivity.
Qed.

Lemma render_raw_video_only_witness :
  ops (ctx (snd (render sin_poly (withFaces (frame_at 16) (Some [])) initialPage)))
  = [] ++ [DrawImage 640 480].
Proof.
  apply (render_raw_video_only sin_poly (withFaces (frame_at 16) (Some [])) initialPage
           eq_refl).
  do 4 right. reflexivity.
Defined.

(** X6. Only the first detected face is drawn: faces after the first in
    the result change nothing in what an iteration does. *)
Theorem render_draws_first_face_only (sin : float -> float) (f : Frame) (p : Page)
    (landmarks : list Landmark) (others : list (list Landmark)) :
  render sin (withFaces f (Some (landmarks :: others))) p
  = render sin (withFaces f (Some [landmarks])) p.
Proof. rewrite !render_run. reflexivity. Qed.

(** X7. When an iteration reaches the inference step with a new clock
    reading and the result has a face, the canvas it leaves is what
    [drawEyebrows] draws for the first face, over the raw frame, with the
    style the selection resolves to (which always exists). *)
Theorem render_overlay_is_drawEyebrows (sin : float -> float) (f : Frame) (p : Page)
    (landmarks : list Landmark) (others : list (list Landmark)) :
  reachesInference f = true ->
  (lastVideoTime p =? now f) = false ->
  faceLandmarks f = Some (landmarks :: others) ->
  exists style,
    resolveStyle styles (selectedStyleId f) = Some style
    /\ (drawEyebrows sin landmarks style
          (extend (sized f (ctx p)) [DrawImage (videoWidth f) (videoHeight f)])
        = (Normal tt, ctx (snd (render sin f p)))).
Proof.
  intros Hr Hl Hf. exists (selectedStyle (selectedStyleId f)).
  split; [apply resolveStyle_defined|].
  rewrite render_run. unfold renderPage, videoReady.
  assert (Hv : negb (readyState f <? 2)%nat
               && negb (falsy (videoWidth f) || falsy (videoHeight f)) = true).
  { unfold reachesInference in Hr.
    destruct (negb (readyState f <? 2)%nat
              && negb (falsy (videoWidth f) || falsy (videoHeight f)));
      [reflexivity | discriminate]. }
  rewrite Hv. cbn [snd ctx]. cbv zeta.
  pose proof (drawEyebrows_draws sin landmarks (selectedStyle (selectedStyleId f))
                (extend (sized f (ctx p)) [DrawImage (videoWidth f) (videoHeight f)]))
    as Hd.
  unfold draws in Hd. rewrite Hd, extend_extend.
  unfold overlayOps, detects. rewrite Hr, Hl, Hf. reflexivity.
Qed.

Lemma render_overlay_is_drawEyebrows_witness :
  exists style,
    resolveStyle styles "arch" = Some style
    /\ (drawEyebrows sin_poly sample_landmarks style
          (extend (sized (frame_at 16) (mkCtx 300 150 [])) [DrawImage 640 480])
        = (Normal tt, ctx (snd (render sin_poly (frame_at 16) initialPage)))).
Proof.
  exact (render_overlay_is_drawEyebrows sin_poly (frame_at 16) initialPage
           sample_landmarks [] eq_refl eq_refl eq_refl).
Defined.

Lemma adjacent_distinct_snoc ts x :
  adjacent_distinct ts ->
  (forall earlier a, ts = earlier ++ [a] -> (a =? x) = false) ->
  adjacent_distinct (ts ++ [x]).
Proof.
  intros Hadj Hlast l1 a b l2 Heq.
  destruct (exists_last (l := a :: b :: l2)) as (l' & y & Hl'); [discriminate|].
  assert (Heq' : ts ++ [x] = (l1 ++ l') ++ [y])
    by (rewrite <- app_assoc, <- Hl'; exact Heq).
  apply app_inj_tail in Heq'. destruct Heq' as [Hts <-].
  destruct l' as [|a' [|b' l'']]; cbn in Hl'.
  - discriminate.
  - injection Hl' as <- <- Hnil.
    apply (Hlast l1 a). exact Hts.
  - injection Hl' as <- <- _.
    apply (Hadj l1 a b l''). exact Hts.
Qed.

Lemma renderPage_tracks sin f p :
  adjacent_distinct (detectCalls p) /\ tracks_last_call p ->
  adjacent_distinct (detectCalls (renderPage sin f p))
  /\ tracks_last_call (renderPage sin f p).
Proof.
  intros [Hadj Htr]. unfold renderPage, tracks_last_call.
  destruct (videoReady f); cbn [detectCalls lastVideoTime]; [|now split].
  destruct (detects f p) eqn:Hd; [|now split].
  split.
  - apply adjacent_distinct_snoc; [assumption|].
    intros earlier a Hts.
    unfold detects in Hd. apply andb_prop in Hd. destruct Hd as [_ Hd].
    apply negb_true_iff in Hd.
    destruct Htr as [Hnil|[e He]].
    + rewrite Hnil in Hts. now destruct earlier.
    + rewrite He in Hts. apply app_inj_tail in Hts. destruct Hts as [_ <-].
      exact Hd.
  - right. now exists (detectCalls p).
Qed.

Lemma run_tracks sin fs :
  forall p, adjacent_distinct (detectCalls p) /\ tracks_last_call p ->
            adjacent_distinct (detectCalls (run sin fs p))
            /\ tracks_last_call (run sin fs p).
Proof.
  induction fs as [|f fs IH]; intros p H; [exact H|].
  rewrite run_cons. apply IH. now apply renderPage_tracks.
Qed.

(** X8. With no assumption on the clock: started with no inference call
    recorded, the loop never makes two calls in a row with the same
    timestamp, and once a call was made the last processed timestamp is the
    timestamp of the latest call. *)
Theorem consecutive_calls_differ (sin : float -> float) (frames : list Frame) (p : Page) :
  detectCalls p = [] ->
  let p' := run sin frames p in
  adjacent_distinct (detectCalls p')
  /\ (detectCalls p' = []
      \/ exists earlier, detectCalls p' = earlier ++ [lastVideoTime p']).
Proof.
  intros Hlog. apply run_tracks. split.
  - intros l1 a b l2 Heq. rewrite Hlog in Heq. now destruct l1.
  - now left.
Qed.

Lemma consecutive_calls_differ_witness :
  let p' := run sin_poly [frame_at 16; frame_at 33; frame_at 33; frame_at 16] initialPage in
  adjacent_distinct (detectCalls p')
  /\ (detectCalls p' = []
      \/ exists earlier, detectCalls p' = earlier ++ [lastVideoTime p']).
Proof.
  exact (consecutive_calls_differ sin_poly
           [frame_at 16; frame_at 33; frame_at 33; frame_at 16] initialPage eq_refl).
Defined.

(** X9. The loop makes at most one inference call per iteration, each with
    the clock reading of one of its frames; calls already recorded are kept
    in front, in order. *)
Theorem calls_are_frame_clock_readings (sin : float -> float) (frames : list Frame) :
  forall p,
    exists calls,
      detectCalls (run sin frames p) = detectCalls p ++ calls
      /\ (length calls <= length frames)%nat
      /\ (forall t, In t calls -> In t (map now frames)).
Proof.
  induction frames as [|f fs IH]; intros p.
  - exists []. cbn. rewrite app_nil_r. repeat split; [lia | intros t []].
  - rewrite run_cons. destruct (IH (renderPage sin f p)) as (calls & Heq & Hlen & Hin).
    rewrite Heq. unfold renderPage.
    destruct (videoReady f); cbn [detectCalls];
      [destruct (detects f p)|].
    + exists (now f :: calls). rewrite <- app_assoc. cbn [app length map].
      repeat split; [lia|].
      intros t [<-|Ht]; [now left | right; now apply Hin].
    + exists calls. cbn [length map]. repeat split; [lia|].
      intros t Ht. right. now apply Hin.
    + exists calls. cbn [length map]. repeat split; [lia|].
      intros t Ht. right. now apply Hin.
Qed.

Lemma smoothOps_path_calls pts : Forall path_call (smoothOps pts).
Proof.
  unfold smoothOps. destruct (length pts <? 2)%nat; [constructor|].
  constructor; [exact I|]. constructor; [exact I|].
  apply Forall_app. split.
  - rewrite Forall_map, Forall_forall. intros i _. exact I.
  - constructor; [exact I | constructor].
Qed.

Lemma path_call_not_stroke l : Forall path_call l -> filter is_stroke l = [].
Proof.
  induction 1 as [|op l Hop _ IH]; [reflexivity|].
  cbn [filter]. rewrite IH. destruct op; try reflexivity; destruct Hop.
Qed.

Lemma path_call_quiet l :
  Forall path_call l -> Forall (fun op => ~ state_or_fill_call op) l.
Proof.
  intros H. eapply Forall_impl; [|exact H].
  intros op Hop Hbad. destruct op; cbn in Hop, Hbad; contradiction.
Qed.

(** X10. With a single index [smoothPath] gets one point and returns at
    once, three times: [drawOneSide] sets up the stroke style and strokes
    three times without beginning or extending any path. *)
Theorem drawOneSide_single_index_builds_no_path (sin : float -> float)
    (landmarks : list Landmark) (i : nat) (style : EyebrowStyle) (side : Side) (c : Ctx) :
  drawOneSide sin landmarks [i] style side c
  = (Normal tt,
     extend c [Save; SetFilter "blur(0.6px)"; SetStrokeStyle (color style);
               SetLineWidth (canvas_height c * 0.012 * thickness style);
               SetLineCap "round"; SetLineJoin "round";
               Stroke; SetGlobalAlpha 0.8; Stroke; SetGlobalAlpha 0.7; Stroke;
               Restore]).
Proof.
  pose proof (drawOneSide_draws sin landmarks [i] style side c) as H.
  unfold draws in H. rewrite H by discriminate. reflexivity.
Qed.

(** X11. On a non-empty index list the stroke renderer completes normally
    and works inside one [save] / [restore] pair: between them it never
    saves, restores, fills, closes a path, sets the fill style or draws an
    image, and it strokes exactly three times. *)
Theorem drawOneSide_scoped_strokes (sin : float -> float)
    (landmarks : list Landmark) (indices : list nat) (style : EyebrowStyle)
    (side : Side) (c : Ctx) :
  indices <> [] ->
  exists inner,
    drawOneSide sin landmarks indices style side c
    = (Normal tt, extend c (Save :: inner ++ [Restore]))
    /\ Forall (fun op => ~ state_or_fill_call op) inner
    /\ length (filter is_stroke inner) = 3%nat.
Proof.
  intros Hne.
  pose proof (drawOneSide_draws sin landmarks indices style side c Hne) as H.
  unfold draws, strokeOps in H. cbv zeta in H.
  set (lineWidth := canvas_height c * 0.012 * thickness style) in *.
  set (pts := pointsOf sin landmarks indices style (canvas_width c) (canvas_height c)) in *.
  set (up := map (fun p => mkPoint (px p) (py p - lineWidth * 0.18)) pts) in *.
  set (down := map (fun p => mkPoint (px p) (py p + lineWidth * 0.18)) pts) in *.
  exists ([SetFilter "blur(0.6px)"; SetStrokeStyle (color style);
           SetLineWidth lineWidth; SetLineCap "round"; SetLineJoin "round"]
          ++ smoothOps pts ++ [Stroke; SetGlobalAlpha 0.8]
          ++ smoothOps up ++ [Stroke; SetGlobalAlpha 0.7]
          ++ smoothOps down ++ [Stroke]).
  split; [|split].
  - rewrite H. do 2 f_equal. cbn [app]. do 6 f_equal.
    repeat (rewrite <- app_assoc; cbn [app]). reflexivity.
  - repeat (apply Forall_app; split);
      try (apply path_call_quiet, smoothOps_path_calls);
      repeat constructor; intros Hbad; exact Hbad.
  - rewrite !filter_app.
    rewrite (path_call_not_stroke (smoothOps pts)),
            (path_call_not_stroke (smoothOps up)),
            (path_call_not_stroke (smoothOps down))
      by apply smoothOps_path_calls.
    reflexivity.
Qed.

Lemma drawOneSide_scoped_strokes_witness :
  exists inner,
    drawOneSide sin_poly sample_landmarks LEFT_EYEBROW arch_style L hd_canvas
    = (Normal tt, extend hd_canvas (Save :: inner ++ [Restore]))
    /\ Forall (fun op => ~ state_or_fill_call op) inner
    /\ length (filter is_stroke inner) = 3%nat.
Proof.
  apply (drawOneSide_scoped_strokes sin_poly sample_landmarks LEFT_EYEBROW arch_style
           L hd_canvas).
  discriminate.
Defined.

(** ** The fill renderers *)

Lemma forEach_from_ext {A} (f g : A -> nat -> Draw unit) :
  (forall a k c, f a k c = g a k c) ->
  forall l from c, forEach_from f from l c = forEach_from g from l c.
Proof.
  intros Hfg. induction l as [|a l IH]; intros from c; [reflexivity|].
  cbn [forEach_from]. unfold bind. rewrite Hfg.
  destruct (g a from c) as [[[]|e] c']; [apply IH | reflexivity].
Qed.

(** X12. The vertical offset of a style is a translation of the landmark
    set: the first pass of the styled fill renderer plots what the first
    revision plots for the landmarks raised by [offsetY]. *)
Theorem fill_offset_is_translation (landmarks : list Landmark)
    (style : EyebrowStyle) (indices : list nat) (c : Ctx) :
  forEach (FillVariant.plot landmarks style) indices c
  = forEach (Revision1.plot (map (raise (offsetY style)) landmarks)) indices c.
Proof.
  unfold forEach. apply forEach_from_ext. clear c. intros i idx c.
  unfold FillVariant.plot, Revision1.plot, at_index. cbv zeta.
  rewrite nth_error_map.
  destruct (nth_error landmarks i) as [lm|]; reflexivity.
Qed.

Lemma plotOps_cases landmarks style w h i idx :
  (exists lm,
     present landmarks i = true
     /\ plotOps landmarks style w h i idx
        = [if (idx =? 0)%nat
           then MoveTo (lm_x lm * w) ((lm_y lm + offsetY style) * h)
           else LineTo (lm_x lm * w) ((lm_y lm + offsetY style) * h)])
  \/ (present landmarks i = false /\ plotOps landmarks style w h i idx = []).
Proof.
  unfold plotOps, present, at_index.
  destruct (nth_error landmarks i) as [lm|] eqn:Hlm.
  - left. exists lm. split; [|reflexivity].
    apply Nat.ltb_lt, nth_error_Some. congruence.
  - right. split; [|reflexivity].
    apply Nat.ltb_ge, nth_error_None. assumption.
Qed.

Lemma plotOps_after_first landmarks style w h :
  forall indices from,
    length (forEach_ops (plotOps landmarks style w h) (S from) indices)
    = length (filter (present landmarks) indices)
    /\ Forall (fun op => is_lineTo op = true)
              (forEach_ops (plotOps landmarks style w h) (S from) indices).
Proof.
  induction indices as [|i indices IH]; intros from; [split; [reflexivity | constructor]|].
  cbn [forEach_ops filter]. destruct (IH (S from)) as [Hlen Hall].
  destruct (plotOps_cases landmarks style w h i (S from)) as [(lm & Hp & ->)|[Hp ->]];
    rewrite Hp; cbn [app length Nat.eqb].
  - split; [now rewrite Hlen|]. constructor; [reflexivity | assumption].
  - now split.
Qed.

Lemma forEach_plot_run landmarks style indices c :
  forEach (FillVariant.plot landmarks style) indices c
  = (Normal tt,
     extend c (forEach_ops (plotOps landmarks style (canvas_width c) (canvas_height c))
                           0 indices)).
Proof.
  unfold forEach.
  apply (forEach_from_draws (FillVariant.plot landmarks style)
           (plotOps landmarks style (canvas_width c) (canvas_height c))
           (canvas_width c) (canvas_height c)); [|reflexivity|reflexivity].
  intros a k c' Hw Hh. rewrite <- Hw, <- Hh. apply plot_draws.
Qed.

(** X13. The polygon of the fill renderer has one call per index whose
    landmark is present and none for the others; all of them are [lineTo]
    except the call of the first index, which is the [moveTo].  When the
    first landmark is missing there is no [moveTo] at all. *)
Theorem fill_path_skips_missing (landmarks : list Landmark) (style : EyebrowStyle)
    (first : nat) (others : list nat) (c : Ctx) :
  exists path,
    forEach (FillVariant.plot landmarks style) (first :: others) c
    = (Normal tt, extend c path)
    /\ length path = length (filter (present landmarks) (first :: others))
    /\ (if present landmarks first
        then exists x y rest,
               path = MoveTo x y :: rest /\ Forall (fun op => is_lineTo op = true) rest
        else Forall (fun op => is_lineTo op = true) path).
Proof.
  eexists. split; [apply forEach_plot_run|].
  cbn [forEach_ops filter].
  destruct (plotOps_after_first landmarks style (canvas_width c) (canvas_height c)
              others 0) as [Hlen Hall].
  destruct (plotOps_cases landmarks style (canvas_width c) (canvas_height c) first 0)
    as [(lm & Hp & ->)|[Hp ->]];
    rewrite Hp; cbn [app length Nat.eqb].
  - split; [now rewrite Hlen|].
    do 3 eexists. split; [reflexivity | assumption].
  - now split.
Qed.

Lemma plotOps_no_fill landmarks style w h :
  forall indices from,
    filter is_fill (forEach_ops (plotOps landmarks style w h) from indices) = [].
Proof.
  induction indices as [|i indices IH]; intros from; [reflexivity|].
  cbn [forEach_ops]. rewrite filter_app, IH, app_nil_r.
  unfold plotOps. destruct (at_index landmarks i); [|reflexivity].
  cbv zeta. destruct (from =? 0)%nat; reflexivity.
Qed.

Lemma plotScaledOps_no_fill landmarks style scale w h :
  forall indices from,
    filter is_fill (forEach_ops (plotScaledOps landmarks style scale w h) from indices)
    = [].
Proof.
  induction indices as [|i indices IH]; intros from; [reflexivity|].
  cbn [forEach_ops]. rewrite filter_app, IH, app_nil_r.
  unfold plotScaledOps. destruct (at_index landmarks i); [|reflexivity].
  cbv zeta. destruct (from =? 0)%nat; reflexivity.
Qed.

(** X14. On a non-empty index list the styled fill renderer completes
    normally; it sets the fill style before saving the context and restores
    it last, and fills twice when the thickness is above 1 (the second,
    scaled pass) and once otherwise. *)
Theorem fill_second_pass_when_thick (landmarks : list Landmark)
    (indices : list nat) (style : EyebrowStyle) (c : Ctx) :
  indices <> [] ->
  exists inner,
    FillVariant.drawOneSide landmarks indices style c
    = (Normal tt, extend c (SetFillStyle (color style) :: Save :: inner ++ [Restore]))
    /\ length (filter is_fill inner) = (if 1 <? thickness style then 2%nat else 1%nat).
Proof.
  intros Hne.
  pose proof (fill_drawOneSide_draws landmarks indices style c Hne) as H.
  unfold draws, fillOps in H.
  set (w := canvas_width c) in *. set (h := canvas_height c) in *.
  set (second := if 1 <? thickness style
                 then [BeginPath]
                        ++ forEach_ops
                             (plotScaledOps landmarks style
                                (1 + (thickness style - 1) * 0.06) w h) 0 indices
                        ++ [ClosePath; Fill]
                 else []) in *.
  exists ([SetFilter "blur(0.6px)"; BeginPath]
          ++ forEach_ops (plotOps landmarks style w h) 0 indices
          ++ [ClosePath; Fill] ++ second).
  split.
  - rewrite H. do 2 f_equal. cbn [app]. do 4 f_equal.
    repeat (rewrite <- app_assoc; cbn [app]). reflexivity.
  - rewrite !filter_app, plotOps_no_fill. unfold second.
    destruct (1 <? thickness style); [|reflexivity].
    rewrite !filter_app, plotScaledOps_no_fill. reflexivity.
Qed.

Lemma fill_second_pass_when_thick_witness :
  exists inner,
    FillVariant.drawOneSide sample_landmarks LEFT_EYEBROW arch_style hd_canvas
    = (Normal tt, extend hd_canvas (SetFillStyle "rgba(55, 35, 25, 0.85)" :: Save
                                      :: inner ++ [Restore]))
    /\ length (filter is_fill inner) = 2%nat.
Proof.
  apply (fill_second_pass_when_thick sample_landmarks LEFT_EYEBROW arch_style hd_canvas).
  discriminate.
Defined.

(** ** The earlier revisions of the loop *)

Lemma render2_run f p : Revision2.render f p = (Normal tt, renderPage2 f p).
Proof.
  unfold Revision2.render, renderPage2, videoReady.
  unfold bind at 1. cbn [requestAnimationFrame].
  destruct (readyState f <? 2)%nat; [reflexivity|].
  cbv zeta.
  destruct (falsy (videoWidth f) || falsy (videoHeight f)); [reflexivity|].
  cbn [negb andb].
  unfold bind at 1. cbn [onCanvas width ctx lastVideoTime detectCalls requested].
  unfold bind at 1. cbn [onCanvas height ctx lastVideoTime detectCalls requested].
  unfold sized, bind.
  destruct (negb _ || negb _); reflexivity.
Qed.

Lemma sized_ops f c : ops (sized f c) = ops c.
Proof. unfold sized. destruct (negb _ || negb _); reflexivity. Qed.

(** X15. An iteration of the current loop does what the revision without
    landmarks does and then, at most, adds overlay calls: same completion,
    same canvas size, same requested frames, the earlier calls a prefix of
    the later ones.  While the landmarker is missing or not ready the two
    iterations are equal. *)
Theorem render_extends_video_only (sin : float -> float) (f : Frame) (p : Page) :
  (exists overlay,
     fst (render sin f p) = fst (Revision2.render f p)
     /\ ctx (snd (render sin f p)) = extend (ctx (snd (Revision2.render f p))) overlay
     /\ requested (snd (render sin f p)) = requested (snd (Revision2.render f p)))
  /\ (landmarkerRef f = false \/ landmarkerReady f = false ->
      render sin f p = Revision2.render f p).
Proof.
  rewrite render_run, render2_run. unfold renderPage, renderPage2.
  split.
  - destruct (videoReady f); cbn [fst snd ctx requested]; cbv zeta.
    + exists (overlayOps sin f p (sized f (ctx p))).
      rewrite extend_extend. repeat split.
    + exists []. rewrite extend_nil. repeat split.
  - intros Hno. f_equal. destruct (videoReady f); [|reflexivity]. cbv zeta.
    assert (Hd : detects f p = false).
    { unfold detects, reachesInference.
      destruct Hno as [H|H]; rewrite H; rewrite ?andb_false_r; reflexivity. }
    unfold overlayOps. rewrite Hd. reflexivity.
Qed.

Lemma render_extends_video_only_witness :
  render sin_poly loading_frame initialPage = Revision2.render loading_frame initialPage.
Proof.
  apply (proj2 (render_extends_video_only sin_poly loading_frame initialPage)).
  now left.
Defined.






(** ** Any number of captures *)

(** X17. After any series of triggers the store holds, before the captures
    it had, one record per trigger that found the canvas, the latest first:
    nothing is dropped, merged or reordered, and a trigger without canvas
    adds nothing. *)
Theorem captures_accumulate_newest_first (triggers : list (option string * float)) :
  forall captures,
    captureAll triggers captures = rev (taken triggers) ++ captures
    /\ length (captureAll triggers captures)
       = (length (taken triggers) + length captures)%nat.
Proof.
  assert (H : forall captures,
             captureAll triggers captures = rev (taken triggers) ++ captures).
  { induction triggers as [|[canvasRef t] triggers IH]; intros captures; [reflexivity|].
    unfold captureAll in *. cbn [fold_left taken flat_map fst snd].
    rewrite IH, rev_app_distr, <- app_assoc.
    destruct canvasRef; reflexivity. }
  intros captures. split; [apply H|].
  rewrite H, length_app, length_rev. reflexivity.
Qed.

(** ** Camera and landmarker start-up *)

Lemma startup_run_snoc evs e st :
  Startup.run (evs ++ [e]) st = Startup.step e (Startup.run evs st).
Proof. unfold Startup.run. now rewrite fold_left_app. Qed.

Lemma loadedmetadata_cases videoRef st :
  (Startup.onloadedmetadata st = true
   /\ Startup.loadedmetadata videoRef st
      = Startup.mkState (Startup.errorMsg st) true (Startup.landmarkerReady st)
          (Startup.landmarkerRef st) (Startup.stream st) (Startup.srcObject st)
          (Startup.onloadedmetadata st) (Startup.playing st || videoRef)
          (Startup.stopped st))
  \/ (Startup.onloadedmetadata st = false /\ Startup.loadedmetadata videoRef st = st).
Proof.
  unfold Startup.loadedmetadata.
  destruct (Startup.onloadedmetadata st) eqn:H; [left | right]; now split.
Qed.

Lemma cleanup_cases st :
  (exists s, Startup.stream st = Some s
             /\ Startup.cleanup st
                = Startup.mkState (Startup.errorMsg st) (Startup.cameraReady st)
                    (Startup.landmarkerReady st) (Startup.landmarkerRef st)
                    (Startup.stream st) (Startup.srcObject st)
                    (Startup.onloadedmetadata st) (Startup.playing st)
                    (Startup.stopped st ++ [s]))
  \/ (Startup.stream st = None /\ Startup.cleanup st = st).
Proof.
  unfold Startup.cleanup.
  destruct (Startup.stream st) as [s|] eqn:H; [left; exists s | right]; now split.
Qed.




Lemma startup_no_grant_inv evs :
  (forall s videoRef, ~ In (Startup.CameraGranted s videoRef) evs) ->
  let st := Startup.run evs Startup.initial in
  Startup.cameraReady st = false /\ Startup.onloadedmetadata st = false
  /\ Startup.stream st = None /\ Startup.stopped st = [].
Proof.
  induction evs as [|e evs IH] using rev_ind; intros Hno; cbv zeta.
  - repeat split.
  - rewrite startup_run_snoc.
    assert (Hno' : forall s v, ~ In (Startup.CameraGranted s v) evs).
    { intros s v Hin. apply (Hno s v), in_or_app. now left. }
    specialize (IH Hno'). cbv zeta in IH. destruct IH as (H1 & H2 & H3 & H4).
    destruct e as [|s v| |v| | |]; cbn [Startup.step]; try (repeat split; assumption).
    + exfalso. apply (Hno s v), in_or_app. right. now left.
    + destruct (loadedmetadata_cases v (Startup.run evs Startup.initial))
        as [[Hreg _]|[_ ->]]; [congruence | repeat split; assumption].
    + destruct (cleanup_cases (Startup.run evs Startup.initial))
        as [(s0 & Hs0 & _)|[_ ->]]; [congruence | repeat split; assumption].
Qed.

(** X19. When no stream is ever granted (access denied, or still pending),
    the camera never becomes ready, whatever else happens: the cleanup has
    nothing to stop, and the loop effect returns without running a single
    iteration, so nothing is drawn and no frame is requested. *)
Theorem no_camera_no_loop (events : list Startup.Event) :
  (forall s videoRef, ~ In (Startup.CameraGranted s videoRef) events) ->
  let st := Startup.run events Startup.initial in
  Startup.cameraReady st = false
  /\ Startup.stopped st = []
  /\ (forall sin videoRef canvasRef getContext frames p,
        renderEffect sin (Startup.cameraReady st) videoRef canvasRef getContext frames p
        = p).
Proof.
  intros Hno. destruct (startup_no_grant_inv events Hno) as (H1 & _ & _ & H4).
  cbv zeta. split; [assumption|]. split; [assumption|].
  intros. rewrite H1. reflexivity.
Qed.

Lemma no_camera_no_loop_witness :
  Startup.cameraReady
    (Startup.run [Startup.CameraStart; Startup.CameraDenied;
                  Startup.LoadedMetadata true; Startup.CameraCleanup] Startup.initial)
  = false
  /\ Startup.errorMsg
       (Startup.run [Startup.CameraStart; Startup.CameraDenied;
                     Startup.LoadedMetadata true; Startup.CameraCleanup] Startup.initial)
     = Some Startup.cameraMsg.
Proof.
  split; [|reflexivity].
  apply (no_camera_no_loop
           [Startup.CameraStart; Startup.CameraDenied;
            Startup.LoadedMetadata true; Startup.CameraCleanup]).
  intros s v Hin. cbn [In] in Hin.
  destruct Hin as [H|[H|[H|[H|[]]]]]; discriminate H.
Defined.

(** A stream is held only after its grant, and stopped only by a cleanup
    that came after it. *)
Lemma startup_stopped_inv evs :
  let st := Startup.run evs Startup.initial in
  (forall s, In s (Startup.stopped st) ->
     exists pre videoRef post,
       evs = pre ++ Startup.CameraGranted s videoRef :: post
       /\ In Startup.CameraCleanup post)
  /\ (forall s, Startup.stream st = Some s ->
        exists pre videoRef post, evs = pre ++ Startup.CameraGranted s videoRef :: post).
Proof.
  induction evs as [|e evs IH] using rev_ind; cbv zeta.
  - split; [intros s [] | discriminate].
  - rewrite startup_run_snoc. cbv zeta in IH. destruct IH as [IHs IHg].
    set (st := Startup.run evs Startup.initial) in *.
    assert (Hs : forall s, In s (Startup.stopped st) ->
                 exists pre v post,
                   evs ++ [e] = pre ++ Startup.CameraGranted s v :: post
                   /\ In Startup.CameraCleanup post).
    { intros s H. destruct (IHs s H) as (pre & v & post & -> & Hc).
      exists pre, v, (post ++ [e]). split.
      - now rewrite <- app_assoc.
      - apply in_or_app. now left. }
    assert (Hg : forall s, Startup.stream st = Some s ->
                 exists pre v post, evs ++ [e] = pre ++ Startup.CameraGranted s v :: post).
    { intros s H. destruct (IHg s H) as (pre & v & post & ->).
      exists pre, v, (post ++ [e]). now rewrite <- app_assoc. }
    destruct e as [|s0 v0| |v| | |]; cbn [Startup.step]; try (split; assumption).
    + split.
      * destruct v0; exact Hs.
      * intros s H.
        assert (s0 = s) as -> by (destruct v0; cbn in H; congruence).
        now exists evs, v0, [].
    + destruct (loadedmetadata_cases v st) as [[_ ->]|[_ ->]]; split; assumption.
    + destruct (cleanup_cases st) as [(s0 & Hst & ->)|[_ ->]]; [|split; assumption].
      cbn [Startup.stopped Startup.stream]. split; [|exact Hg].
      intros s Hin. apply in_app_or in Hin. destruct Hin as [Hin|[<-|[]]].
      * now apply Hs.
      * destruct (IHg s0 Hst) as (pre & v & post & Heq).
        exists pre, v, (post ++ [Startup.CameraCleanup]). split.
        -- now rewrite Heq, <- app_assoc.
        -- apply in_or_app. right. now left.
Qed.

(** X20. The tracks of a stream are stopped only by a cleanup that runs
    after the stream was granted. *)
Theorem stream_stopped_by_later_cleanup (events : list Startup.Event) (s : nat) :
  In s (Startup.stopped (Startup.run events Startup.initial)) ->
  exists pre videoRef post,
    events = pre ++ Startup.CameraGranted s videoRef :: post
    /\ In Startup.CameraCleanup post.
Proof. intros H. now apply (proj1 (startup_stopped_inv events)). Qed.

Lemma stream_stopped_by_later_cleanup_witness :
  exists pre videoRef post,
    [Startup.CameraStart; Startup.CameraGranted 7 true; Startup.CameraCleanup]
    = pre ++ Startup.CameraGranted 7 videoRef :: post
    /\ In Startup.CameraCleanup post.
Proof.
  apply (stream_stopped_by_later_cleanup
           [Startup.CameraStart; Startup.CameraGranted 7 true; Startup.CameraCleanup] 7).
  now left.
Defined.

(** X21. A cleanup that runs while the stream is still pending releases
    nothing: when the stream is granted afterwards it is held and its tracks
    are not stopped. *)
Theorem cleanup_before_grant_leaves_stream (events : list Startup.Event)
    (s : nat) (videoRef : bool) :
  (forall v, ~ In (Startup.CameraGranted s v) events) ->
  let st := Startup.run (events ++ [Startup.CameraGranted s videoRef]) Startup.initial in
  Startup.stream st = Some s /\ ~ In s (Startup.stopped st).
Proof.
  intros Hfresh. cbv zeta. rewrite startup_run_snoc. cbn [Startup.step].
  split; [destruct videoRef; reflexivity|].
  intros Hin.
  assert (Hin' : In s (Startup.stopped (Startup.run events Startup.initial)))
    by (destruct videoRef; exact Hin).
  destruct (proj1 (startup_stopped_inv events) s Hin') as (pre & v & post & -> & _).
  apply (Hfresh v), in_or_app. right. now left.
Qed.

Lemma cleanup_before_grant_leaves_stream_witness :
  Startup.stream
    (Startup.run ([Startup.CameraStart; Startup.CameraCleanup]
                  ++ [Startup.CameraGranted 7 true]) Startup.initial) = Some 7%nat
  /\ ~ In 7%nat (Startup.stopped
               (Startup.run ([Startup.CameraStart; Startup.CameraCleanup]
                             ++ [Startup.CameraGranted 7 true]) Startup.initial)).
Proof.
  apply (cleanup_before_grant_leaves_stream
           [Startup.CameraStart; Startup.CameraCleanup] 7 true).
  intros v Hin. cbn [In] in Hin. destruct Hin as [H|[H|[]]]; discriminate H.
Defined.

Lemma startup_model_inv evs :
  let st := Startup.run evs Startup.initial in
  (Startup.landmarkerReady st = true ->
   Startup.landmarkerRef st = true /\ In Startup.ModelLoaded evs)
  /\ (forall m, Startup.errorMsg st = Some m ->
        (m = Startup.cameraMsg /\ In Startup.CameraDenied evs)
        \/ (m = Startup.modelMsg /\ In Startup.ModelFailed evs)).
Proof.
  induction evs as [|e evs IH] using rev_ind; cbv zeta.
  - split; [discriminate | intros m; discriminate].
  - rewrite startup_run_snoc. cbv zeta in IH. destruct IH as [IHl IHm].
    set (st := Startup.run evs Startup.initial) in *.
    assert (Hl : Startup.landmarkerReady st = true ->
                 Startup.landmarkerRef st = true /\ In Startup.ModelLoaded (evs ++ [e])).
    { intros H. destruct (IHl H) as [H1 H2]. split; [assumption|].
      apply in_or_app. now left. }
    assert (Hm : forall m, Startup.errorMsg st = Some m ->
                 (m = Startup.cameraMsg /\ In Startup.CameraDenied (evs ++ [e]))
                 \/ (m = Startup.modelMsg /\ In Startup.ModelFailed (evs ++ [e]))).
    { intros m H. destruct (IHm m H) as [[H1 H2]|[H1 H2]]; [left | right];
        (split; [assumption | apply in_or_app; now left]). }
    destruct e as [|s v| |v| | |]; cbn [Startup.step]; try (split; assumption).
    + split; [exact Hl | intros m; discriminate].
    + destruct v; split; assumption.
    + split; [exact Hl|]. intros m H. cbn in H. injection H as <-.
      left. split; [reflexivity | apply in_or_app; right; now left].
    + destruct (loadedmetadata_cases v st) as [[_ ->]|[_ ->]]; split; assumption.
    + destruct (cleanup_cases st) as [(s0 & _ & ->)|[_ ->]]; split; assumption.
    + split; [|exact Hm]. intros _. split; [reflexivity|].
      apply in_or_app. right. now left.
    + split; [exact Hl|]. intros m H. cbn in H. injection H as <-.
      right. split; [reflexivity | apply in_or_app; right; now left].
Qed.

(** X22. The landmarker is reported ready only with [landmarkerRef.current]
    set, after the model loaded; so the two tests the loop makes before
    inference pass together. *)
Theorem landmarker_ready_has_ref (events : list Startup.Event) :
  Startup.landmarkerReady (Startup.run events Startup.initial) = true ->
  Startup.landmarkerRef (Startup.run events Startup.initial) = true
  /\ In Startup.ModelLoaded events.
Proof. apply (proj1 (startup_model_inv events)). Qed.

Lemma landmarker_ready_has_ref_witness :
  Startup.landmarkerRef
    (Startup.run [Startup.CameraStart; Startup.ModelLoaded] Startup.initial) = true
  /\ In Startup.ModelLoaded [Startup.CameraStart; Startup.ModelLoaded].
Proof.
  exact (landmarker_ready_has_ref [Startup.CameraStart; Startup.ModelLoaded] eq_refl).
Defined.

(** X23. The page shows a message only after a failure, and the message
    names a failure that happened: the camera message after a denied
    camera, the model message after a failed model load. *)
Theorem error_message_names_a_failure (events : list Startup.Event) (m : string) :
  Startup.errorMsg (Startup.run events Startup.initial) = Some m ->
  (m = Startup.cameraMsg /\ In Startup.CameraDenied events)
  \/ (m = Startup.modelMsg /\ In Startup.ModelFailed events).
Proof. apply (proj2 (startup_model_inv events)). Qed.

Lemma error_message_names_a_failure_witness :
  (Startup.modelMsg = Startup.cameraMsg
   /\ In Startup.CameraDenied [Startup.CameraStart; Startup.CameraDenied; Startup.ModelFailed])
  \/ (Startup.modelMsg = Startup.modelMsg
      /\ In Startup.ModelFailed [Startup.CameraStart; Startup.CameraDenied; Startup.ModelFailed]).
Proof.
  exact (error_message_names_a_failure
           [Startup.CameraStart; Startup.CameraDenied; Startup.ModelFailed]
           Startup.modelMsg eq_refl).
Defined.

(** ** The arch strength of an unknown style *)

(** X24. An identifier outside the catalog would get the default strength
    0.003 from [getArchStrength], but the loop never asks for it: such a
    selection resolves to the "natural" style, whose strength is 0. *)
Theorem unknown_style_draws_natural_arch (selectedStyleId : string) :
  (forall s, In s styles -> id s <> selectedStyleId) ->
  getArchStrength selectedStyleId = 0.003
  /\ resolveStyle styles selectedStyleId = Some (selectedStyle selectedStyleId)
  /\ getArchStrength (id (selectedStyle selectedStyleId)) = 0.
Proof.
  intros Hnone.
  assert (Hne : forall s, In s styles -> String.eqb selectedStyleId (id s) = false).
  { intros s Hin. apply String.eqb_neq. intros Heq. now apply (Hnone s Hin). }
  split; [|split; [apply resolveStyle_defined|]].
  - pose proof (Hne (nth 0 styles natural_style) ltac:(cbn; tauto)) as H0.
    pose proof (Hne (nth 1 styles natural_style) ltac:(cbn; tauto)) as H1.
    pose proof (Hne (nth 2 styles natural_style) ltac:(cbn; tauto)) as H2.
    pose proof (Hne (nth 3 styles natural_style) ltac:(cbn; tauto)) as H3.
    pose proof (Hne (nth 4 styles natural_style) ltac:(cbn; tauto)) as H4.
    cbn [nth styles id] in H0, H1, H2, H3, H4.
    unfold getArchStrength. now rewrite H0, H1, H2, H3, H4.
  - unfold selectedStyle, resolveStyle.
    destruct (find _ styles) as [s|] eqn:Hfind; [|reflexivity].
    apply find_some in Hfind. destruct Hfind as [Hin Heq].
    apply String.eqb_eq in Heq. now destruct (Hnone s Hin).
Qed.

Lemma unknown_style_draws_natural_arch_witness :
  getArchStrength "feathered" = 0.003
  /\ resolveStyle styles "feathered" = Some (selectedStyle "feathered")
  /\ getArchStrength (id (selectedStyle "feathered")) = 0.
Proof.
  apply (unknown_style_draws_natural_arch "feathered").
  intros s Hin. cbn [In styles] in Hin.
  destruct Hin as [<-|[<-|[<-|[<-|[<-|[]]]]]]; discriminate.
Defined.
